(** * msanii demo utilities: length alignment, padding, masking, scaling

    A shallow embedding of [src/msanii/demo/utils.py] and the properties of
    its length arithmetic, its pad/crop discipline, its axis rearrangements,
    its interval mask and its peak scaling.

    Conventions of the embedding.
    - Python [int] is [Z].  The float arithmetic of the length calculator is
      given twice: in binary64 with its rounding and its overflow (module
      [F64], [compute_divisible_length_f64]), and as the exact quotient
      ([compute_divisible_length]); the two agree on every length below
      [2^50], which covers the length of any allocated axis.  The samples of
      a tensor are of type [float]: exact finite values and the IEEE special
      values that a division by zero can produce.
    - A raised exception is [None]; a returned value is [Some v].
    - An array (numpy [ndarray], torch [Tensor]) is its shape together with
      its elements in row-major order. *)

From Stdlib Require Import ZArith QArith Qround Qabs Qpower Lia Lqa Ascii String.
From stdpp Require Import base option list numbers strings.

Local Open Scope Z_scope.

(** ** Python numeric primitives *)

Module Py.

(** [a / b] on two ints, before rounding: the exact quotient;
    [ZeroDivisionError] when [b = 0].  The binary64 operation, which rounds
    this quotient and can overflow, is [truediv64] below. *)
Definition truediv (a b : Z) : option Q :=
  if decide (b = 0) then None else Some (inject_Z a / inject_Z b)%Q.

(** [int(x)] on a float: truncation toward zero. *)
Definition int (x : Q) : Z :=
  if Qle_bool 0 x then Qfloor x else Qceiling x.

(** [math.ceil(x)]. *)
Definition ceil (x : Q) : Z := Qceiling x.

(** [2**n] for an int [n >= 0]. *)
Definition pow2 (n : N) : Z := 2 ^ Z.of_N n.

End Py.

(** ** Divisibility calculator *)

(** [compute_divisible_length(curr_length, hop_length, num_downsamples)],
    its two quotients taken exactly.  This is what the code computes as long
    as no quotient is rounded: for every length below [2^50] and depth up to
    1074 (lemma [compute_divisible_length_f64_Z]).
    The depth is a count of downsampling layers, hence of type [N]: with a
    negative depth [2**num_downsamples] is a float and the function does not
    return an int any more. *)
Definition compute_divisible_length
    (curr_length hop_length : Z) (num_downsamples : N) : option Z :=
  q ← Py.truediv curr_length hop_length;
  let num_time_frames := Py.int (q + 1)%Q in
  r ← Py.truediv num_time_frames (Py.pow2 num_downsamples);
  let divisible_time_frames := Py.ceil r * Py.pow2 num_downsamples in
  let divisible_length := (divisible_time_frames - 1) * hop_length in
  Some divisible_length.

(** The same value written with integer division only. *)
Definition divisible_length_Z (curr_length hop_length : Z) (nd : N) : Z :=
  let frames := curr_length / hop_length + 1 in
  ((frames + Py.pow2 nd - 1) / Py.pow2 nd * Py.pow2 nd - 1) * hop_length.

(** ** The length calculator in binary64 *)

Module F64.

(** [2^z] for any integer [z]. *)
Definition pow2 (z : Z) : Q := (2 ^ z)%Q.

(** [floor (log2 x)] for [x > 0]. *)
Definition ilog2 (x : Q) : Z :=
  let k := Z.log2 (Qnum x) - Z.log2 (Z.pos (Qden x)) in
  if Qle_bool (pow2 k) x then k else k - 1.

(** Rounding to the nearest integer, ties to the even one. *)
Definition rne (x : Q) : Z :=
  let f := Qfloor x in
  match (x - inject_Z f ?= 1 # 2)%Q with
  | Lt => f
  | Gt => f + 1
  | Eq => if Z.even f then f else f + 1
  end.

(** The spacing of the binary64 numbers around [x > 0]: 53 significant
    bits, least exponent -1022 (below it the subnormal spacing [2^-1074]). *)
Definition ulp (x : Q) : Q := pow2 (Z.max (ilog2 x) (-1022) - 52).

(** Rounding to the nearest binary64 number, ties to even; the range is
    checked apart, by [overflows]. *)
Definition round (x : Q) : Q :=
  match (x ?= 0)%Q with
  | Eq => 0
  | Gt => inject_Z (rne (x / ulp x)) * ulp x
  | Lt => - (inject_Z (rne (- x / ulp (- x))) * ulp (- x))
  end.

(** Whether [x] rounds beyond the largest binary64 number. *)
Definition overflows (x : Q) : bool :=
  Qle_bool (pow2 1024 - pow2 970) (Qabs x).

End F64.

(** [a / b] on two ints in binary64: the correctly rounded quotient;
    [ZeroDivisionError] when [b = 0], [OverflowError] when the quotient is
    too large for a float. *)
Definition truediv64 (a b : Z) : option Q :=
  if decide (b = 0) then None
  else
    let q := (inject_Z a / inject_Z b)%Q in
    if F64.overflows q then None else Some (F64.round q).

(** [compute_divisible_length] as the interpreter evaluates it: both
    quotients are binary64 divisions, and so is the sum [... + 1] (which
    cannot overflow); [int()], [math.ceil] and the integer arithmetic are
    exact. *)
Definition compute_divisible_length_f64
    (curr_length hop_length : Z) (num_downsamples : N) : option Z :=
  q ← truediv64 curr_length hop_length;
  let num_time_frames := Py.int (F64.round (q + 1)) in
  r ← truediv64 num_time_frames (Py.pow2 num_downsamples);
  let divisible_time_frames := Py.ceil r * Py.pow2 num_downsamples in
  let divisible_length := (divisible_time_frames - 1) * hop_length in
  Some divisible_length.

(** ** Arrays *)

(** An n-dimensional array: its shape and its elements in row-major order. *)
Record ndarray (A : Type) := NdArray { shape : list nat; data : list A }.
Arguments NdArray {A} _ _.
Arguments shape {A} _.
Arguments data {A} _.

(** Number of elements of a shape. *)
Definition numel (s : list nat) : nat := foldr Nat.mul 1%nat s.

(** A well-formed array stores as many elements as its shape announces. *)
Definition wf {A} (a : ndarray A) : Prop := length (data a) = numel (shape a).

(** [s[:-1], s[-1]]: the leading axes and the last axis of a shape;
    [IndexError] on a 0-d array. *)
Fixpoint split_last (s : list nat) : option (list nat * nat) :=
  match s with
  | [] => None
  | d :: s' =>
      match split_last s' with
      | None => Some ([], d)
      | Some (lead, n) => Some (d :: lead, n)
      end
  end.

(** The first [k] consecutive blocks of [n] elements of [d]. *)
Fixpoint chunks {A} (n k : nat) (d : list A) : list (list A) :=
  match k with
  | O => []
  | S k' => take n d :: chunks n k' (drop n d)
  end.

(** The rows of an array along its last axis. *)
Definition rows {A} (a : ndarray A) : list (list A) :=
  match split_last (shape a) with
  | None => []
  | Some (lead, n) => chunks n (numel lead) (data a)
  end.

(** The elements of [d] at the flat positions [idxs], in that order; no
    result when a position is out of range. *)
Definition gather {A} (d : list A) (idxs : list nat) : option (list A) :=
  mapM (λ i, d !! i) idxs.

(** ** Constant padding of the last axis *)

Section Padding.
Context {A : Type} (zero : A).

(** One row under [F.pad(x, (l, r))]: a negative amount narrows the row at
    that edge, a positive amount adds that many zeros there. *)
Definition pad_row (l r : Z) (row : list A) : list A :=
  let row1 := if decide (l < 0) then drop (Z.to_nat (- l)) row else row in
  let row2 :=
    if decide (r < 0) then take (length row1 - Z.to_nat (- r)) row1 else row1 in
  replicate (Z.to_nat l) zero ++ row2 ++ replicate (Z.to_nat r) zero.

(** [torch.nn.functional.pad(x, (l, r))] in its default constant mode with
    a pad of two entries, which acts on the last axis.  It raises when the
    array has no axis, and when narrowing by a negative amount would leave
    a negative length; a result of length zero is accepted. *)
Definition F_pad (x : ndarray A) (pad : Z * Z) : option (ndarray A) :=
  let '(l, r) := pad in
  '(lead, n) ← split_last (shape x);
  let n1 := Z.of_nat n + Z.min l 0 in
  guard (0 ≤ n1);;
  let n2 := n1 + Z.min r 0 in
  guard (0 ≤ n2);;
  let new_dim := Z.of_nat n + l + r in
  Some (NdArray (lead ++ [Z.to_nat new_dim])
                (concat (pad_row l r <$> chunks n (numel lead) (data x)))).

(** [pad_to_divisible_length(x, hop_length, num_downsamples, pad_end)].
    The current length is that of an axis of [x], where the exact calculator
    is the binary64 one (lemma [compute_divisible_length_f64_agrees]). *)
Definition pad_to_divisible_length
    (x : ndarray A) (hop_length : Z) (num_downsamples : N) (pad_end : bool)
    : option (ndarray A) :=
  '(_, n) ← split_last (shape x);
  divisible_length ←
    compute_divisible_length (Z.of_nat n) hop_length num_downsamples;
  if pad_end
  then F_pad x (0, divisible_length - Z.of_nat n)
  else F_pad x (divisible_length - Z.of_nat n, 0).

(** What one such call does to each row, by the edge and by the sign of
    [target - n]: a crop when the target is shorter, zeros when it is longer. *)
Definition align_row (pad_end : bool) (n target : nat) (row : list A) : list A :=
  if decide (target ≤ n)%nat
  then (if pad_end then take target row else drop (n - target) row)
  else (if pad_end then row ++ replicate (target - n) zero
        else replicate (target - n) zero ++ row).

(** The array whose rows are the aligned rows of [x]: what a one-sided pad
    of the last axis [n] to the length [target] returns. *)
Definition aligned (pad_end : bool) (lead : list nat) (n target : nat)
    (x : ndarray A) : ndarray A :=
  NdArray (lead ++ [target])
          (concat (align_row pad_end n target <$> rows x)).

End Padding.

(** ** Floating-point samples *)

(** A float: a finite value, held exactly, or one of the IEEE special
    values.  Zeros carry no sign: the only divisor this program forms is an
    absolute value. *)
Inductive float := Fin (q : Q) | PInf | NInf | NaN.

Definition fzero : float := Fin 0.


(** Equality of floats as numbers; [NaN] is related to itself here, so that
    the relation compares results, not IEEE comparisons. *)
Definition feq (x y : float) : Prop :=
  match x, y with
  | Fin a, Fin b => (a == b)%Q
  | PInf, PInf | NInf, NInf | NaN, NaN => True
  | _, _ => False
  end.

Definition fabs (x : float) : float :=
  match x with
  | Fin a => Fin (Qabs a)
  | PInf | NInf => PInf
  | NaN => NaN
  end.

Definition fdiv (x y : float) : float :=
  match x, y with
  | NaN, _ | _, NaN => NaN
  | Fin a, Fin b =>
      match (b ?= 0)%Q with
      | Eq => match (a ?= 0)%Q with Eq => NaN | Gt => PInf | Lt => NInf end
      | _ => Fin (a / b)
      end
  | Fin _, (PInf | NInf) => Fin 0
  | PInf, Fin b => if Qle_bool 0 b then PInf else NInf
  | NInf, Fin b => if Qle_bool 0 b then NInf else PInf
  | (PInf | NInf), (PInf | NInf) => NaN
  end.

Definition fmul (x y : float) : float :=
  match x, y with
  | NaN, _ | _, NaN => NaN
  | Fin a, Fin b => Fin (a * b)
  | Fin a, PInf | PInf, Fin a =>
      match (a ?= 0)%Q with Eq => NaN | Gt => PInf | Lt => NInf end
  | Fin a, NInf | NInf, Fin a =>
      match (a ?= 0)%Q with Eq => NaN | Gt => NInf | Lt => PInf end
  | PInf, PInf | NInf, NInf => PInf
  | PInf, NInf | NInf, PInf => NInf
  end.

(** The larger of two floats, [NaN] if either is (as [torch.max] has it). *)
Definition fmax (x y : float) : float :=
  match x, y with
  | NaN, _ | _, NaN => NaN
  | PInf, _ | _, PInf => PInf
  | NInf, z | z, NInf => z
  | Fin a, Fin b => if Qle_bool a b then Fin b else Fin a
  end.

(** [t.max()] over all elements; [RuntimeError] on an empty tensor. *)
Definition max_all (d : list float) : option float :=
  match d with
  | [] => None
  | v :: vs => Some (foldl fmax v vs)
  end.

(** ** Tensors as objects: the amplitude scaler *)

(** Elementwise tensor operations; each builds a new array. *)
Definition torch_abs (t : ndarray float) : ndarray float :=
  NdArray (shape t) (fabs <$> data t).

Definition torch_div_scalar (t : ndarray float) (m : float) : ndarray float :=
  NdArray (shape t) ((λ v, fdiv v m) <$> data t).

Definition torch_mul_scalar (t : ndarray float) (c : float) : ndarray float :=
  NdArray (shape t) ((λ v, fmul v c) <$> data t).

(** The store of tensor objects.  A tensor value in the program is a
    reference into it; an operation that returns a new tensor allocates. *)
Abbreviation heap := (list (ndarray float)) (only parsing).
Abbreviation ref := nat (only parsing).

(** Computations on the store that may raise. *)
Definition M (X : Type) : Type := heap → option (X * heap).

Definition ret {X} (x : X) : M X := λ h, Some (x, h).

Definition bind {X Y} (m : M X) (k : X → M Y) : M Y :=
  λ h, match m h with
       | None => None
       | Some (x, h') => k x h'
       end.

Notation "x <~ m ; k" := (bind m (λ x, k))
  (at level 100, m at next level, right associativity).

Definition alloc (t : ndarray float) : M ref :=
  λ h, Some (length h, h ++ [t]).

Definition deref (r : ref) : M (ndarray float) :=
  λ h, match h !! r with
       | None => None
       | Some t => Some (t, h)
       end.

Definition raise {X} : M X := λ _, None.

(** [x.abs()] *)
Definition tensor_abs (x : ref) : M ref :=
  t <~ deref x; alloc (torch_abs t).

(** [x.max()]: a new 0-d tensor. *)
Definition tensor_max (x : ref) : M ref :=
  t <~ deref x;
  match max_all (data t) with
  | None => raise
  | Some m => alloc (NdArray [] [m])
  end.

(** [x / m] for a 0-d tensor [m], broadcast over [x]. *)
Definition tensor_div (x m : ref) : M ref :=
  t <~ deref x;
  s <~ deref m;
  match data s with
  | [v] => alloc (torch_div_scalar t v)
  | _ => raise
  end.

(** [x * c] for a Python float [c]. *)
Definition tensor_mul (x : ref) (c : float) : M ref :=
  t <~ deref x; alloc (torch_mul_scalar t c).

(** [max_abs_scaling(x, max_abs_value)].  The two assignments rebind the
    local name [x]; no tensor is written in place. *)
Definition max_abs_scaling (x : ref) (max_abs_value : float) : M ref :=
  a <~ tensor_abs x;
  m <~ tensor_max a;
  x1 <~ tensor_div x m;
  x2 <~ tensor_mul x1 max_abs_value;
  ret x2.

(** The default [max_abs_value = 0.05]. *)
Definition default_max_abs_value : float := Fin (1 # 20).

(** ** numpy input arrays *)

Inductive int_dtype :=
  Int8 | Int16 | Int32 | Int64 | UInt8 | UInt16 | UInt32 | UInt64.

(** [np.iinfo(dtype).max] and [np.iinfo(dtype).min]. *)
Definition iinfo_max (dt : int_dtype) : Z :=
  match dt with
  | Int8 => 2 ^ 7 - 1 | Int16 => 2 ^ 15 - 1
  | Int32 => 2 ^ 31 - 1 | Int64 => 2 ^ 63 - 1
  | UInt8 => 2 ^ 8 - 1 | UInt16 => 2 ^ 16 - 1
  | UInt32 => 2 ^ 32 - 1 | UInt64 => 2 ^ 64 - 1
  end.

Definition iinfo_min (dt : int_dtype) : Z :=
  match dt with
  | Int8 => - 2 ^ 7 | Int16 => - 2 ^ 15
  | Int32 => - 2 ^ 31 | Int64 => - 2 ^ 63
  | UInt8 | UInt16 | UInt32 | UInt64 => 0
  end.

(** An input array: of an integral dtype, or of a floating dtype. *)
Inductive np_array :=
  | IntArray (dt : int_dtype) (a : ndarray Z)
  | FloatArray (a : ndarray float).

(** The elements of an integral array are values of its dtype. *)
Definition np_valid (audio : np_array) : Prop :=
  match audio with
  | IntArray dt a => Forall (λ z, iinfo_min dt ≤ z ≤ iinfo_max dt) (data a)
  | FloatArray _ => True
  end.

(** Lines 57-58 of [gradio_audio_preprocessing]:
    [if issubclass(audio.dtype.type, numbers.Integral):
       audio = audio / np.iinfo(audio.dtype).max]. *)
Definition rescale_integral (audio : np_array) : ndarray float :=
  match audio with
  | IntArray dt a =>
      NdArray (shape a)
        ((λ z, Fin (inject_Z z / inject_Z (iinfo_max dt))) <$> data a)
  | FloatArray a => a
  end.

(** ** Ingest and egress *)

(** [rearrange(audio, "l -> () () l")] and [rearrange(audio, "l c -> () c l")],
    chosen by [audio.ndim == 1]; the second pattern rejects any array that is
    not 2-d. *)
Definition to_batched_channel_first {A} (audio : ndarray A)
    : option (ndarray A) :=
  match shape audio with
  | [l] => Some (NdArray [1; 1; l]%nat (data audio))
  | [l; c] =>
      NdArray [1; c; l]%nat <$>
        gather (data audio)
          (ci ← seq 0 c; li ← seq 0 l; [(li * c + ci)%nat])
  | _ => None
  end.

(** [rearrange(audio, "b c l -> (l b) c")]: the output row of index
    [l * B + b] holds the channels of batch item [b] at time [l]. *)
Definition to_channels_last {A} (audio : ndarray A) : option (ndarray A) :=
  match shape audio with
  | [b; c; l] =>
      NdArray [l * b; c]%nat <$>
        gather (data audio)
          (li ← seq 0 l; bi ← seq 0 b; ci ← seq 0 c;
           [((bi * c + ci) * l + li)%nat])
  | _ => None
  end.

Section Pipeline.

(** The resampling filter of torchaudio, applied when the two rates
    differ: an external capability. *)
Variable resample_kernel : ndarray float → Z → Z → option (ndarray float).

(** [torchaudio.functional.resample(waveform, orig_freq, new_freq)]: rejects
    a rate that is not positive, returns the waveform itself when the rates
    are equal, and filters otherwise. *)
Definition AF_resample (waveform : ndarray float) (orig_freq new_freq : Z)
    : option (ndarray float) :=
  if decide (orig_freq ≤ 0 ∨ new_freq ≤ 0) then None
  else if decide (orig_freq = new_freq) then Some waveform
  else resample_kernel waveform orig_freq new_freq.

(** [gradio_audio_preprocessing].  The final [audio.to(dtype).to(device)]
    changes no value in exact arithmetic, so [dtype] and [device] are not
    parameters here.  The quotient of the target length is taken exactly:
    [int()] of the binary64 quotient is the same for every numerator below
    [2^50] (lemma [truediv64_int]). *)
Definition gradio_audio_preprocessing
    (audio : np_array) (src_sample_rate target_sample_rate : Z)
    (target_length hop_length : Z) (num_downsamples : N) (pad_end : bool)
    : option (ndarray float) :=
  let audio := rescale_integral audio in
  audio ← to_batched_channel_first audio;
  audio ← AF_resample audio src_sample_rate target_sample_rate;
  q ← Py.truediv (target_length * target_sample_rate) src_sample_rate;
  let target_length := Py.int q in
  '(_, n) ← split_last (shape audio);
  audio ←
    (if pad_end
     then F_pad fzero audio (0, target_length - Z.of_nat n)
     else F_pad fzero audio (target_length - Z.of_nat n, 0));
  pad_to_divisible_length fzero audio hop_length num_downsamples pad_end.

End Pipeline.

(** [gradio_audio_postprocessing]; [detach().cpu().numpy()] keeps shape and
    values. *)
Definition gradio_audio_postprocessing
    (audio : ndarray float) (target_length : Z) (pad_end : bool)
    : option (ndarray float) :=
  '(_, n) ← split_last (shape audio);
  audio ←
    (if pad_end
     then F_pad fzero audio (0, target_length - Z.of_nat n)
     else F_pad fzero audio (target_length - Z.of_nat n, 0));
  to_channels_last audio.

(** Ingest followed by egress on a 1-d array [x] of a floating dtype, with
    both rates equal to [rate], [target_length = len(x)] on both sides and
    depth 0: the identity path of the pipeline, the model left out. *)
Definition gradio_roundtrip
    (resample_kernel : ndarray float → Z → Z → option (ndarray float))
    (x : list float) (rate hop_length : Z) (pad_end : bool)
    : option (ndarray float) :=
  audio ← gradio_audio_preprocessing resample_kernel
             (FloatArray (NdArray [length x] x)) rate rate
             (Z.of_nat (length x)) hop_length 0 pad_end;
  gradio_audio_postprocessing audio (Z.of_nat (length x)) pad_end.

(** ** Mask builder *)

(** [s.split(sep)] for a one-character separator: the pieces between the
    separators, always at least one piece. *)
Fixpoint split_on (sep : ascii) (s : string) : list string :=
  match s with
  | EmptyString => [EmptyString]
  | String c s' =>
      if decide (c = sep) then EmptyString :: split_on sep s'
      else match split_on sep s' with
           | [] => [String c EmptyString]
           | p :: ps => String c p :: ps
           end
  end.

(** The ASCII characters [int()] strips at both ends: tab to carriage
    return (9 to 13), and the space (32). *)
Definition is_space (c : ascii) : bool :=
  let n := nat_of_ascii c in
  ((9 <=? n) && (n <=? 13) || (n =? 32))%nat.

Definition digit_value (c : ascii) : option Z :=
  let n := nat_of_ascii c in
  if ((48 <=? n) && (n <=? 57))%nat then Some (Z.of_nat n - 48) else None.

(** Decimal digits in which single underscores may separate digits;
    [after_digit] tells whether the previous character was a digit. *)
Fixpoint parse_digits (acc : Z) (after_digit : bool) (cs : list ascii)
    : option Z :=
  match cs with
  | [] => if after_digit then Some acc else None
  | c :: cs' =>
      match digit_value c with
      | Some v => parse_digits (10 * acc + v) true cs'
      | None =>
          if decide (c = "_"%char) then
            (if after_digit then parse_digits acc false cs' else None)
          else None
      end
  end.

Fixpoint lstrip (cs : list ascii) : list ascii :=
  match cs with
  | c :: cs' => if is_space c then lstrip cs' else cs
  | [] => []
  end.

Definition strip (cs : list ascii) : list ascii :=
  reverse (lstrip (reverse (lstrip cs))).

(** [int()] refuses a text with more digits than this, the interpreter's
    default limit; underscores and the sign do not count, leading zeros
    do. *)
Definition max_str_digits : nat := 4300.

Definition digit_count (cs : list ascii) : nat :=
  length (filter (λ c, is_Some (digit_value c)) cs).

(** [int(s)] on a string, over ASCII: surrounding whitespace, an optional
    sign, decimal digits; [ValueError] otherwise, and for every text with a
    character beyond ASCII. *)
Definition int_of_string (s : string) : option Z :=
  let cs := strip (list_ascii_of_string s) in
  if decide (max_str_digits < digit_count cs)%nat then None else
  match cs with
  | c :: cs =>
      if decide (c = "+"%char) then parse_digits 0 false cs
      else if decide (c = "-"%char) then Z.opp <$> parse_digits 0 false cs
      else parse_digits 0 false (c :: cs)
  | [] => None
  end.

(** [start, end = map(int, mask.split("-"))]: exactly two pieces, both
    integers. *)
Definition parse_interval (mask : string) : option (Z * Z) :=
  match split_on "-" mask with
  | [a; b] => s ← int_of_string a; e ← int_of_string b; Some (s, e)
  | _ => None
  end.

(** The first loop of [generate_gradio_audio_mask]. *)
Definition parse_mask_spec (spec : string) : option (list (Z * Z)) :=
  mapM parse_interval (split_on "," spec).

(** A slice bound [i] on an axis of length [n], as Python adjusts it: a
    negative bound counts from the end, and every bound is clipped to
    [0 .. n]. *)
Definition slice_bound (n : nat) (i : Z) : nat :=
  if decide (i < 0) then Z.to_nat (Z.max 0 (i + Z.of_nat n))
  else Z.to_nat (Z.min i (Z.of_nat n)).

Section Mask.
Context {A : Type} (one zero : A).

(** [mask[start:stop, ...] = 0]: the leading axis is sliced, every other
    axis is taken whole; [IndexError] on a 0-d array. *)
Definition assign_zero_slice (mask : ndarray A) (start stop : Z)
    : option (ndarray A) :=
  match shape mask with
  | [] => None
  | n :: rest =>
      let lo := slice_bound n start in
      let hi := slice_bound n stop in
      let stride := numel rest in
      if decide (lo < hi)%nat then
        Some (NdArray (shape mask)
                (take (lo * stride) (data mask)
                 ++ replicate ((hi - lo) * stride) zero
                 ++ drop (hi * stride) (data mask)))
      else Some mask
  end.

(** The second loop of [generate_gradio_audio_mask].  The rate is annotated
    [int]; it is carried as a rational so that the product and [int()] read
    as in the source, and the properties below take it at an integer, where
    the product is exact. *)
Fixpoint zero_intervals (sample_rate : Q) (mask_intervals : list (Z * Z))
    (mask : ndarray A) : option (ndarray A) :=
  match mask_intervals with
  | [] => Some mask
  | (start, stop) :: rest =>
      let start_sample := Py.int (inject_Z start * sample_rate) in
      let end_sample := Py.int (inject_Z stop * sample_rate) in
      mask ← assign_zero_slice mask start_sample end_sample;
      zero_intervals sample_rate rest mask
  end.

(** [np.ones_like(audio)] *)
Definition ones_like (audio : ndarray A) : ndarray A :=
  NdArray (shape audio) (replicate (numel (shape audio)) one).

(** [generate_gradio_audio_mask(audio, sample_rate, spec)]; [one] and
    [zero] are the values 1 and 0 of the dtype of [audio]. *)
Definition generate_gradio_audio_mask
    (audio : ndarray A) (sample_rate : Q) (spec : string)
    : option (ndarray A) :=
  mask_intervals ← parse_mask_spec spec;
  let mask := ones_like audio in
  zero_intervals sample_rate mask_intervals mask.

(** Whether time index [t] falls in one of the listed intervals, converted
    to samples by [floor (sec * sample_rate)]. *)
Definition masked (sample_rate : Q) (mask_intervals : list (Z * Z)) (t : nat)
    : bool :=
  existsb
    (λ '(start, stop),
       (Qfloor (inject_Z start * sample_rate) <=? Z.of_nat t)
       && (Z.of_nat t <? Qfloor (inject_Z stop * sample_rate)))
    mask_intervals.

(** The same for an integer rate, in integers. *)
Definition masked_int (sample_rate : Z) (mask_intervals : list (Z * Z))
    (t : nat) : bool :=
  existsb
    (λ '(start, stop),
       (start * sample_rate <=? Z.of_nat t)
       && (Z.of_nat t <? stop * sample_rate))
    mask_intervals.

(** A mask described by a predicate on the time index: zero where it
    holds, one elsewhere, on every position of the other axes. *)
Definition mask_of (n : nat) (rest : list nat) (f : nat → bool)
    (mask : ndarray A) : Prop :=
  shape mask = n :: rest
  ∧ length (data mask) = (n * numel rest)%nat
  ∧ ∀ t j, (t < n)%nat → (j < numel rest)%nat →
      data mask !! (t * numel rest + j)%nat
      = Some (if f t then zero else one).

End Mask.

(** ** Class names *)

(** [s.rsplit(sep, maxsplit=1)] when [sep] occurs in [s]: the text before
    the last [sep] and the text after it; no result when [sep] does not
    occur (the split then has a single piece). *)
Fixpoint rsplit1 (sep : ascii) (cs : list ascii)
    : option (list ascii * list ascii) :=
  match cs with
  | [] => None
  | c :: cs' =>
      match rsplit1 sep cs' with
      | Some (a, b) => Some (c :: a, b)
      | None => if decide (c = sep) then Some ([], cs') else None
      end
  end.

(** [s.strip(chars)]: the characters of [chars] are removed at both ends. *)
Fixpoint lstrip_chars (chars cs : list ascii) : list ascii :=
  match cs with
  | c :: cs' => if decide (c ∈ chars) then lstrip_chars chars cs' else cs
  | [] => []
  end.

Definition strip_chars (chars cs : list ascii) : list ascii :=
  reverse (lstrip_chars chars (reverse (lstrip_chars chars cs))).

(** The characters of the literal passed to [strip] in
    [classname_from_class]: apostrophe, greater-than, double quote. *)
Definition class_quotes : list ascii :=
  ["'"%char; ">"%char; ascii_of_nat 34].

(** [classname_from_class(classpath)], on the text [str(classpath)]:
    [str(classpath).rsplit(".", maxsplit=1)[1].strip(...)]; the index [1]
    is an [IndexError] when the text holds no dot. *)
Definition classname_from_class (str_classpath : string) : option string :=
  '(_, tail) ← rsplit1 "."%char (list_ascii_of_string str_classpath);
  Some (string_of_list_ascii (strip_chars class_quotes tail)).

(** * Properties *)

(** ** Divisibility calculator *)

Section DivisibilityFacts.

Lemma pow2_pos nd : 0 < Py.pow2 nd.
Proof. unfold Py.pow2. apply Z.pow_pos_nonneg; lia. Qed.

Lemma Qfloor_div (a b : Z) : Qfloor (inject_Z a / inject_Z b) = a / b.
Proof. symmetry. apply Zdiv_Qdiv. Qed.

Lemma Qceiling_div (a b : Z) :
  0 < b → Qceiling (inject_Z a / inject_Z b) = (a + b - 1) / b.
Proof.
  intros Hb. unfold Qceiling.
  assert (E : (- (inject_Z a / inject_Z b) == inject_Z (- a) / inject_Z b)%Q).
  { rewrite inject_Z_opp. unfold Qdiv. ring. }
  rewrite E, Qfloor_div.
  pose proof (Z.div_mod (- a) b ltac:(lia)) as D1.
  pose proof (Z.mod_pos_bound (- a) b Hb) as B1.
  apply Z.div_unique with (r := b - 1 - (- a) mod b); lia.
Qed.

(** Truncation is the floor on a float that is not negative. *)
Lemma int_nonneg (x : Q) : (0 <= x)%Q → Py.int x = Qfloor x.
Proof.
  intros Hx. unfold Py.int.
  destruct (Qle_bool 0 x) eqn:Hs; [done|].
  apply not_true_iff_false in Hs. exfalso. apply Hs. by apply Qle_bool_iff.
Qed.

Lemma int_frames (len hop : Z) :
  0 ≤ len → 0 < hop →
  Py.int (inject_Z len / inject_Z hop + 1) = len / hop + 1.
Proof.
  intros Hl Hh.
  assert (E : (inject_Z len / inject_Z hop + 1
               == inject_Z (len + hop) / inject_Z hop)%Q).
  { rewrite inject_Z_plus. field. intros C.
    apply (inject_Z_injective hop 0) in C. lia. }
  assert (F : Qfloor (inject_Z len / inject_Z hop + 1) = len / hop + 1).
  { rewrite E, Qfloor_div.
    replace (len + hop) with (len + 1 * hop) by lia.
    rewrite Z.div_add by lia. reflexivity. }
  rewrite int_nonneg; [exact F|].
  apply Qle_trans with (inject_Z (len / hop + 1)).
  - change 0%Q with (inject_Z 0). rewrite <- Zle_Qle.
    pose proof (Z.div_pos len hop Hl Hh). lia.
  - rewrite <- F. apply Qfloor_le.
Qed.

(** On its domain the function returns, and returns the integer formula. *)
Lemma compute_divisible_length_Z (len hop : Z) (nd : N) :
  0 ≤ len → 0 < hop →
  compute_divisible_length len hop nd = Some (divisible_length_Z len hop nd).
Proof.
  intros Hl Hh. pose proof (pow2_pos nd) as Hp.
  unfold compute_divisible_length, Py.truediv.
  rewrite decide_False by lia. cbn [mbind option_bind].
  rewrite decide_False by lia. cbn [mbind option_bind].
  rewrite int_frames by assumption.
  unfold Py.ceil. rewrite Qceiling_div by assumption. reflexivity.
Qed.

(** A zero hop is a [ZeroDivisionError]. *)
Lemma compute_divisible_length_zero_hop len nd :
  compute_divisible_length len 0 nd = None.
Proof. reflexivity. Qed.

(** The frame count rounded up to a multiple of [p]. *)
Lemma round_up_multiple (f p : Z) :
  0 < p →
  f ≤ (f + p - 1) / p * p < f + p ∧ ((f + p - 1) / p * p) mod p = 0.
Proof.
  intros Hp.
  pose proof (Z.div_mod (f + p - 1) p ltac:(lia)) as D.
  pose proof (Z.mod_pos_bound (f + p - 1) p Hp) as B.
  split; [lia|]. apply Z.mod_mul. lia.
Qed.

Lemma divisible_length_Z_bounds (len hop : Z) (nd : N) :
  0 ≤ len → 0 < hop →
  len - len mod hop ≤ divisible_length_Z len hop nd
  ∧ divisible_length_Z len hop nd < len - len mod hop + Py.pow2 nd * hop
  ∧ divisible_length_Z len hop nd / hop + 1
    = (len / hop + 1 + Py.pow2 nd - 1) / Py.pow2 nd * Py.pow2 nd
  ∧ (divisible_length_Z len hop nd / hop + 1) mod Py.pow2 nd = 0.
Proof.
  intros Hl Hh. unfold divisible_length_Z.
  pose proof (pow2_pos nd) as Hp.
  destruct (round_up_multiple (len / hop + 1) (Py.pow2 nd) Hp) as [[B1 B2] B3].
  set (d := (len / hop + 1 + Py.pow2 nd - 1) / Py.pow2 nd * Py.pow2 nd) in *.
  pose proof (Z.div_mod len hop ltac:(lia)) as D.
  rewrite Z.div_mul by lia.
  repeat split; [nia|nia|lia|].
  replace (d - 1 + 1) with d by lia. exact B3.
Qed.

Lemma divisible_length_Z_nonneg (len hop : Z) (nd : N) :
  0 ≤ len → 0 < hop → 0 ≤ divisible_length_Z len hop nd.
Proof.
  intros Hl Hh.
  destruct (divisible_length_Z_bounds len hop nd Hl Hh) as (B & _).
  pose proof (Z.mod_le len hop Hl Hh). lia.
Qed.

(** A divisible length is its own divisible length. *)
Lemma divisible_length_Z_idempotent (len hop : Z) (nd : N) :
  0 ≤ len → 0 < hop →
  divisible_length_Z (divisible_length_Z len hop nd) hop nd
  = divisible_length_Z len hop nd.
Proof.
  intros Hl Hh. pose proof (pow2_pos nd) as Hp.
  destruct (divisible_length_Z_bounds len hop nd Hl Hh) as (_ & _ & E & M).
  set (r := divisible_length_Z len hop nd) in *.
  unfold divisible_length_Z at 1.
  apply Z.mod_divide in M; [|lia]. destruct M as [k Hk].
  rewrite Hk.
  replace (k * Py.pow2 nd + Py.pow2 nd - 1)
    with (Py.pow2 nd - 1 + k * Py.pow2 nd) by lia.
  rewrite Z.div_add by lia. rewrite Z.div_small by lia.
  rewrite Z.add_0_l, <- Hk.
  subst r. unfold divisible_length_Z in *.
  rewrite Z.div_mul in E by lia. rewrite Z.div_mul by lia.
  f_equal. lia.
Qed.

End DivisibilityFacts.

(** ** The length calculator in binary64 agrees with the exact one *)

Section Binary64.

(** A dyadic number [m / 2^j]. *)
Local Abbreviation dy m j := (inject_Z m * F64.pow2 (- j))%Q.

Lemma f64_pow2_pos z : (0 < F64.pow2 z)%Q.
Proof. by apply Qpower_0_lt. Qed.

Lemma f64_pow2_add a b : (F64.pow2 (a + b) == F64.pow2 a * F64.pow2 b)%Q.
Proof. by apply Qpower_plus. Qed.

Lemma f64_pow2_Z n : 0 ≤ n → (F64.pow2 n == inject_Z (2 ^ n))%Q.
Proof. intros Hn. symmetry. by apply Zpower_Qpower. Qed.

Lemma f64_pow2_lt_inv a b : (F64.pow2 a < F64.pow2 b)%Q → a < b.
Proof. intros H. by apply (Qpower_lt_compat_l_inv 2). Qed.

Lemma dy_shift (m j d : Z) :
  0 ≤ d → (dy m j == dy (m * 2 ^ d) (j + d))%Q.
Proof.
  intros Hd. rewrite inject_Z_mult, <- (f64_pow2_Z d Hd), <- Qmult_assoc.
  rewrite <- f64_pow2_add. by replace (d + - (j + d)) with (- j) by lia.
Qed.

Lemma dy_le (m1 m2 j : Z) : m1 ≤ m2 → (dy m1 j <= dy m2 j)%Q.
Proof.
  intros H. apply Qmult_le_compat_r.
  - by rewrite <- Zle_Qle.
  - apply Qlt_le_weak, f64_pow2_pos.
Qed.

Lemma dy_lt (m1 m2 j : Z) : m1 < m2 → (dy m1 j < dy m2 j)%Q.
Proof.
  intros H. apply Qmult_lt_compat_r; [apply f64_pow2_pos|].
  by rewrite <- Zlt_Qlt.
Qed.

Lemma dy_0 (m : Z) : (dy m 0 == inject_Z m)%Q.
Proof. change (F64.pow2 (- 0)) with 1%Q. ring. Qed.

(** An integer quotient against a dyadic number. *)
Lemma dy_le_frac (m j a b : Z) :
  0 ≤ j → 0 < b → m * b ≤ a * 2 ^ j → (dy m j <= inject_Z a / inject_Z b)%Q.
Proof.
  intros Hj Hb H.
  assert (Hp : 0 < 2 ^ j) by (apply Z.pow_pos_nonneg; lia).
  assert (Hbq : (0 < inject_Z b)%Q) by (rewrite (Zlt_Qlt 0) in Hb; exact Hb).
  assert (Hpq : (0 < inject_Z (2 ^ j))%Q)
    by (rewrite (Zlt_Qlt 0) in Hp; exact Hp).
  unfold F64.pow2. rewrite Qpower_opp. fold (F64.pow2 j).
  rewrite (f64_pow2_Z j Hj).
  apply Qle_shift_div_l; [exact Hbq|].
  assert (E : (inject_Z m * / inject_Z (2 ^ j) * inject_Z b
               == inject_Z (m * b) / inject_Z (2 ^ j))%Q)
    by (rewrite inject_Z_mult; field; lra).
  rewrite E.
  apply Qle_shift_div_r; [exact Hpq|].
  rewrite <- inject_Z_mult. by rewrite <- Zle_Qle.
Qed.

Lemma frac_le_dy (m j a b : Z) :
  0 ≤ j → 0 < b → a * 2 ^ j ≤ m * b → (inject_Z a / inject_Z b <= dy m j)%Q.
Proof.
  intros Hj Hb H.
  assert (Hp : 0 < 2 ^ j) by (apply Z.pow_pos_nonneg; lia).
  assert (Hbq : (0 < inject_Z b)%Q) by (rewrite (Zlt_Qlt 0) in Hb; exact Hb).
  assert (Hpq : (0 < inject_Z (2 ^ j))%Q)
    by (rewrite (Zlt_Qlt 0) in Hp; exact Hp).
  unfold F64.pow2. rewrite Qpower_opp. fold (F64.pow2 j).
  rewrite (f64_pow2_Z j Hj).
  apply Qle_shift_div_r; [exact Hbq|].
  assert (E : (inject_Z m * / inject_Z (2 ^ j) * inject_Z b
               == inject_Z (m * b) / inject_Z (2 ^ j))%Q)
    by (rewrite inject_Z_mult; field; lra).
  rewrite E.
  apply Qle_shift_div_l; [exact Hpq|].
  rewrite <- inject_Z_mult. by rewrite <- Zle_Qle.
Qed.

(** [2 ^ ilog2 x] does not exceed [x]. *)
Lemma ilog2_le (x : Q) : (0 < x)%Q → (F64.pow2 (F64.ilog2 x) <= x)%Q.
Proof.
  intros Hx. unfold F64.ilog2.
  destruct (Qle_bool _ x) eqn:T; [by apply Qle_bool_iff|].
  destruct x as [a b]. cbn [Qnum Qden].
  assert (Ha : 0 < a) by (unfold Qlt in Hx; cbn in Hx; lia).
  pose proof (Z.log2_spec a Ha) as [La _].
  pose proof (Z.log2_spec (Z.pos b) ltac:(lia)) as [_ Lb].
  pose proof (Z.log2_nonneg a) as Na.
  pose proof (Z.log2_nonneg (Z.pos b)) as Nb.
  set (la := Z.log2 a) in *. set (lb := Z.log2 (Z.pos b)) in *.
  assert (Pa : 0 < 2 ^ la) by (apply Z.pow_pos_nonneg; lia).
  replace (la - lb - 1) with (la + - (lb + 1)) by lia.
  rewrite f64_pow2_add, (f64_pow2_Z la Na).
  rewrite (Qmake_Qdiv a b).
  apply dy_le_frac; [lia|lia|].
  replace (Z.succ lb) with (lb + 1) in Lb by lia. nia.
Qed.

Lemma ilog2_lt (x : Q) (B : Z) :
  (0 < x)%Q → (x < F64.pow2 B)%Q → F64.ilog2 x < B.
Proof.
  intros Hx HB. apply f64_pow2_lt_inv.
  eapply Qle_lt_trans; [by apply ilog2_le|exact HB].
Qed.

Lemma rne_ge (z : Z) (x : Q) : (inject_Z z <= x)%Q → z ≤ F64.rne x.
Proof.
  intros H. apply Qfloor_resp_le in H. rewrite Qfloor_Z in H.
  unfold F64.rne. destruct (_ ?= _)%Q; [destruct (Z.even _)|..]; lia.
Qed.

Lemma rne_le (z : Z) (x : Q) : (x <= inject_Z z)%Q → F64.rne x ≤ z.
Proof.
  intros H. pose proof (Qfloor_le x) as F.
  assert (F1 : Qfloor x ≤ z).
  { rewrite Zle_Qle. by apply Qle_trans with x. }
  assert (F2 : (inject_Z (Qfloor x) < x)%Q → Qfloor x + 1 ≤ z).
  { intros Hlt. assert (Qfloor x < z); [|lia].
    rewrite Zlt_Qlt. by apply Qlt_le_trans with x. }
  unfold F64.rne. destruct (_ ?= _)%Q eqn:C.
  - apply Qeq_alt in C. destruct (Z.even _); [exact F1|]. apply F2. lra.
  - exact F1.
  - apply Qgt_alt in C. apply F2. lra.
Qed.

(** Rounding stays between two multiples of the spacing that enclose the
    argument. *)
Lemma round_bracket (x : Q) (zl zh : Z) :
  (0 <= x)%Q →
  (inject_Z zl * F64.ulp x <= x)%Q → (x <= inject_Z zh * F64.ulp x)%Q →
  (inject_Z zl * F64.ulp x <= F64.round x)%Q
  ∧ (F64.round x <= inject_Z zh * F64.ulp x)%Q.
Proof.
  intros H0 Hl Hh. unfold F64.round.
  pose proof (f64_pow2_pos (Z.max (F64.ilog2 x) (-1022) - 52)) as Hu.
  fold (F64.ulp x) in Hu.
  destruct (x ?= 0)%Q eqn:C.
  - apply Qeq_alt in C. split; lra.
  - apply Qlt_alt in C. lra.
  - split; (apply Qmult_le_compat_r; [|lra]); rewrite <- Zle_Qle.
    + apply rne_ge. by apply Qle_shift_div_l.
    + apply rne_le. by apply Qle_shift_div_r.
Qed.

(** A dyadic number fine enough for the binade of [x] is a multiple of the
    spacing there. *)
Lemma ulp_divides (x : Q) (m j : Z) :
  (0 < x)%Q → (x < dy (2 ^ 53) j)%Q → j ≤ 1074 →
  ∃ z, (dy m j == inject_Z z * F64.ulp x)%Q.
Proof.
  intros Hx Hlt Hj.
  assert (HB : (x < F64.pow2 (53 - j))%Q).
  { replace (53 - j) with (53 + - j) by lia.
    by rewrite f64_pow2_add, (f64_pow2_Z 53) by lia. }
  pose proof (ilog2_lt x _ Hx HB) as He.
  unfold F64.ulp. set (E := Z.max (F64.ilog2 x) (-1022)).
  set (d := - j - (E - 52)).
  assert (Hd : 0 ≤ d) by lia.
  exists (m * 2 ^ d). rewrite (dy_shift m j d Hd).
  by replace (- (j + d)) with (E - 52) by lia.
Qed.

Lemma round_between (x : Q) (ml mh j : Z) :
  (0 <= x)%Q → (x < dy (2 ^ 53) j)%Q → j ≤ 1074 →
  (dy ml j <= x)%Q → (x <= dy mh j)%Q →
  (dy ml j <= F64.round x)%Q ∧ (F64.round x <= dy mh j)%Q.
Proof.
  intros H0 Hlt Hj Hl Hh.
  destruct (Qle_lt_or_eq _ _ H0) as [Hx|Hx].
  - destruct (ulp_divides x ml j Hx Hlt Hj) as (zl & El).
    destruct (ulp_divides x mh j Hx Hlt Hj) as (zh & Eh).
    rewrite El, Eh in *. by apply round_bracket.
  - unfold F64.round. symmetry in Hx. pose proof Hx as C.
    apply Qeq_alt in C. rewrite C. split; lra.
Qed.

Lemma Qfloor_unique (z : Z) (x : Q) :
  (inject_Z z <= x)%Q → (x < inject_Z (z + 1))%Q → Qfloor x = z.
Proof.
  intros Hl Hh. apply Qfloor_resp_le in Hl. rewrite Qfloor_Z in Hl.
  pose proof (Qfloor_le x) as F.
  assert (Qfloor x < z + 1); [|lia].
  rewrite Zlt_Qlt. by apply Qle_lt_trans with x.
Qed.


Lemma dy_frac (m j : Z) :
  0 ≤ j → (dy m j == inject_Z m / inject_Z (2 ^ j))%Q.
Proof.
  intros Hj. unfold F64.pow2. rewrite Qpower_opp. fold (F64.pow2 j).
  by rewrite (f64_pow2_Z j Hj).
Qed.

Lemma dy_int (m j : Z) : 0 ≤ j → (dy (m * 2 ^ j) j == inject_Z m)%Q.
Proof.
  intros Hj. rewrite <- (dy_0 m), (dy_shift m 0 j Hj).
  by replace (0 + j) with j by lia.
Qed.

Lemma dy_succ (m j : Z) : 0 ≤ j → (dy (m + 2 ^ j) j == dy m j + 1)%Q.
Proof.
  intros Hj. rewrite inject_Z_plus, Qmult_plus_distr_l.
  pose proof (dy_int 1 j Hj) as E. rewrite Z.mul_1_l in E.
  by rewrite E.
Qed.

Lemma no_overflow (x : Q) :
  (0 <= x)%Q → (x < inject_Z (2 ^ 53))%Q → F64.overflows x = false.
Proof.
  intros H0 Hx. unfold F64.overflows.
  destruct (Qle_bool _ _) eqn:T; [|done]. exfalso.
  apply Qle_bool_iff in T. rewrite (Qabs_pos x H0) in T.
  assert (B : (inject_Z (2 ^ 53) <= F64.pow2 1024 - F64.pow2 970)%Q)
    by (vm_compute; discriminate).
  lra.
Qed.

(** A power of two that scales the quotient [len / hop] to where binary64
    holds it and its successor exactly enough. *)
Lemma frame_scale (len hop : Z) :
  0 ≤ len < 2 ^ 50 → 0 < hop →
  ∃ k, 0 ≤ k ≤ 50
       ∧ hop ≤ (hop - len mod hop) * 2 ^ k
       ∧ len * 2 ^ k < 2 ^ 51 * hop
       ∧ (len / hop + 2) * 2 ^ k ≤ 2 ^ 53.
Proof.
  intros [Hl Hlt] Hh.
  pose proof (Z.div_mod len hop ltac:(lia)) as D.
  pose proof (Z.mod_pos_bound len hop Hh) as M.
  pose proof (Z.div_pos len hop Hl Hh) as N.
  change (2 ^ 51) with (2 * 2 ^ 50). change (2 ^ 53) with (8 * 2 ^ 50).
  destruct (decide (hop ≤ 2 ^ 50)) as [Hs|Hb].
  - exists (Z.log2_up hop).
    pose proof (Z.log2_up_nonneg hop) as K0.
    assert (K50 : Z.log2_up hop ≤ 50) by (by apply Z.log2_up_le_pow2).
    assert (K : hop ≤ 2 ^ Z.log2_up hop ∧ 2 ^ Z.log2_up hop < 2 * hop).
    { destruct (decide (hop = 1)) as [->|H1]; [by vm_compute|].
      pose proof (Z.log2_up_spec hop ltac:(lia)) as [S1 S2].
      split; [exact S2|].
      replace (Z.log2_up hop) with (Z.succ (Z.pred (Z.log2_up hop))) at 1
        by lia.
      rewrite Z.pow_succ_r; [lia|].
      assert (0 < Z.log2_up hop) by (apply Z.log2_up_pos; lia). lia. }
    destruct K as [K1 K2]. set (p := 2 ^ Z.log2_up hop) in *.
    set (P50 := 2 ^ 50) in *.
    repeat split; try lia; nia.
  - exists 50. rewrite Z.div_small, Z.mod_small by lia.
    set (P50 := 2 ^ 50) in *. repeat split; try lia; nia.
Qed.

(** Below [2^50], and up to depth 1074, no binary64 operation of the
    calculator rounds: it returns the integer formula. *)
Lemma compute_divisible_length_f64_Z (len hop : Z) (nd : N) :
  0 ≤ len < 2 ^ 50 → 0 < hop → (nd ≤ 1074)%N →
  compute_divisible_length_f64 len hop nd
  = Some (divisible_length_Z len hop nd).
Proof.
  intros Hlen Hh Hnd.
  destruct (frame_scale len hop Hlen Hh) as (k & [Hk0 Hk50] & K1 & K2 & K3).
  destruct Hlen as [Hl Hlt].
  pose proof (Z.div_mod len hop ltac:(lia)) as D.
  pose proof (Z.mod_pos_bound len hop Hh) as M.
  pose proof (Z.div_pos len hop Hl Hh) as N.
  set (n := len / hop) in *. set (p := 2 ^ k) in *.
  assert (Hp : 0 < p) by (apply Z.pow_pos_nonneg; lia).
  set (q := (inject_Z len / inject_Z hop)%Q).
  (* the first quotient *)
  assert (Ql : (dy (n * p) k <= q)%Q) by (apply dy_le_frac; [lia..|fold p; nia]).
  assert (Qh : (q <= dy ((n + 1) * p - 1) k)%Q)
    by (apply frac_le_dy; [lia..|fold p; nia]).
  assert (Q0 : (0 <= q)%Q).
  { eapply Qle_trans; [|exact Ql]. rewrite <- (dy_int 0 k Hk0).
    apply dy_le. fold p. nia. }
  assert (Qr : (q < dy (2 ^ 53) k)%Q).
  { eapply Qle_lt_trans; [exact Qh|]. apply dy_lt. lia. }
  assert (Qi : (q < inject_Z (2 ^ 53))%Q).
  { apply Qle_lt_trans with (inject_Z len).
    - rewrite <- (dy_0 len). apply frac_le_dy; [lia..|]. nia.
    - rewrite <- Zlt_Qlt. change (2 ^ 53) with (8 * 2 ^ 50). lia. }
  destruct (round_between q _ _ k Q0 Qr ltac:(lia) Ql Qh) as [Y1 Y2].
  set (y := F64.round q) in *.
  (* plus one *)
  assert (X1 : (dy ((n + 1) * p) k <= y + 1)%Q).
  { replace ((n + 1) * p) with (n * p + 2 ^ k) by (fold p; lia).
    rewrite (dy_succ _ k Hk0). lra. }
  assert (X2 : (y + 1 <= dy ((n + 2) * p - 1) k)%Q).
  { replace ((n + 2) * p - 1) with ((n + 1) * p - 1 + 2 ^ k) by (fold p; lia).
    rewrite (dy_succ _ k Hk0). lra. }
  assert (X0 : (0 <= y + 1)%Q).
  { eapply Qle_trans; [|exact X1]. rewrite <- (dy_int 0 k Hk0).
    apply dy_le. fold p. nia. }
  assert (Xr : (y + 1 < dy (2 ^ 53) k)%Q).
  { eapply Qle_lt_trans; [exact X2|]. apply dy_lt. lia. }
  destruct (round_between (y + 1) _ _ k X0 Xr ltac:(lia) X1 X2) as [W1 W2].
  set (w := F64.round (y + 1)) in *.
  assert (Wi : Py.int w = n + 1).
  { rewrite int_nonneg.
    - apply Qfloor_unique.
      + rewrite <- (dy_int (n + 1) k Hk0). exact W1.
      + eapply Qle_lt_trans; [exact W2|].
        rewrite <- (dy_int (n + 1 + 1) k Hk0). apply dy_lt. fold p. lia.
    - eapply Qle_trans; [|exact W1]. rewrite <- (dy_int 0 k Hk0).
      apply dy_le. fold p. nia. }
  (* the second quotient *)
  pose proof (pow2_pos nd) as HP.
  set (j := Z.of_N nd). assert (Hj : 0 ≤ j ≤ 1074) by lia.
  set (q3 := (inject_Z (n + 1) / inject_Z (Py.pow2 nd))%Q).
  assert (E3 : (dy (n + 1) j == q3)%Q)
    by (unfold q3, Py.pow2; fold j; apply dy_frac; lia).
  assert (R0 : (0 <= q3)%Q).
  { rewrite <- E3, <- (dy_int 0 j ltac:(lia)). rewrite Z.mul_0_l.
    apply dy_le. lia. }
  assert (Rr : (q3 < dy (2 ^ 53) j)%Q).
  { rewrite <- E3. apply dy_lt. change (2 ^ 53) with (8 * 2 ^ 50). nia. }
  assert (Ri : (q3 < inject_Z (2 ^ 53))%Q).
  { apply Qle_lt_trans with (inject_Z (n + 1)).
    - rewrite <- (dy_0 (n + 1)). apply frac_le_dy; [lia..|].
      fold (Py.pow2 nd). nia.
    - rewrite <- Zlt_Qlt. change (2 ^ 53) with (8 * 2 ^ 50). nia. }
  destruct (round_between q3 (n + 1) (n + 1) j R0 Rr ltac:(lia))
    as [Z1 Z2]; [rewrite E3; apply Qle_refl..|].
  assert (Ez : (F64.round q3 == q3)%Q).
  { apply Qle_antisym; lra. }
  (* assembling *)
  unfold compute_divisible_length_f64, truediv64.
  rewrite decide_False by lia. fold q.
  rewrite (no_overflow q Q0 Qi). cbn [mbind option_bind]. fold y. fold w.
  rewrite Wi. rewrite decide_False by lia. fold q3.
  rewrite (no_overflow q3 R0 Ri). cbn [mbind option_bind].
  unfold Py.ceil. rewrite Ez. unfold q3.
  rewrite Qceiling_div by assumption. reflexivity.
Qed.

(** [int(a / b)] below [2^50]: the binary64 quotient truncates to the
    integer quotient, as the exact one does. *)
Lemma truediv64_int (a b : Z) :
  0 ≤ a < 2 ^ 50 → 0 < b →
  Py.int <$> truediv64 a b = Some (a / b)
  ∧ Py.int <$> Py.truediv a b = Some (a / b).
Proof.
  intros Ha Hb.
  destruct (frame_scale a b Ha Hb) as (k & [Hk0 Hk50] & K1 & K2 & K3).
  destruct Ha as [Hl Hlt].
  pose proof (Z.div_mod a b ltac:(lia)) as D.
  pose proof (Z.mod_pos_bound a b Hb) as M.
  pose proof (Z.div_pos a b Hl Hb) as N.
  set (n := a / b) in *. set (p := 2 ^ k) in *.
  assert (Hp : 0 < p) by (apply Z.pow_pos_nonneg; lia).
  set (q := (inject_Z a / inject_Z b)%Q).
  assert (Ql : (dy (n * p) k <= q)%Q) by (apply dy_le_frac; [lia..|fold p; nia]).
  assert (Qh : (q <= dy ((n + 1) * p - 1) k)%Q)
    by (apply frac_le_dy; [lia..|fold p; nia]).
  assert (Q0 : (0 <= q)%Q).
  { eapply Qle_trans; [|exact Ql]. rewrite <- (dy_int 0 k Hk0).
    apply dy_le. fold p. nia. }
  assert (Qr : (q < dy (2 ^ 53) k)%Q).
  { eapply Qle_lt_trans; [exact Qh|]. apply dy_lt. lia. }
  assert (Qi : (q < inject_Z (2 ^ 53))%Q).
  { apply Qle_lt_trans with (inject_Z a).
    - rewrite <- (dy_0 a). apply frac_le_dy; [lia..|]. nia.
    - rewrite <- Zlt_Qlt. change (2 ^ 53) with (8 * 2 ^ 50). lia. }
  destruct (round_between q _ _ k Q0 Qr ltac:(lia) Ql Qh) as [Y1 Y2].
  assert (U : (dy ((n + 1) * p - 1) k < inject_Z (n + 1))%Q).
  { rewrite <- (dy_int (n + 1) k Hk0). apply dy_lt. fold p. lia. }
  assert (Y0 : (0 <= F64.round q)%Q).
  { eapply Qle_trans; [|exact Y1]. rewrite <- (dy_int 0 k Hk0).
    apply dy_le. fold p. nia. }
  split.
  - unfold truediv64. rewrite decide_False by lia. fold q.
    rewrite (no_overflow q Q0 Qi). cbn [fmap option_fmap option_map]. f_equal.
    rewrite int_nonneg by exact Y0. apply Qfloor_unique.
    + rewrite <- (dy_int n k Hk0). exact Y1.
    + eapply Qle_lt_trans; [exact Y2|]. exact U.
  - unfold Py.truediv. rewrite decide_False by lia. fold q.
    cbn [fmap option_fmap option_map]. f_equal.
    rewrite int_nonneg by exact Q0. apply Qfloor_unique.
    + rewrite <- (dy_int n k Hk0). exact Ql.
    + eapply Qle_lt_trans; [exact Qh|]. exact U.
Qed.

(** Hence the two calculators agree below [2^50]: the length aligner, whose
    length is that of a tensor axis, is stated with the exact one. *)
Lemma compute_divisible_length_f64_agrees (len hop : Z) (nd : N) :
  0 ≤ len < 2 ^ 50 → 0 < hop → (nd ≤ 1074)%N →
  compute_divisible_length_f64 len hop nd
  = compute_divisible_length len hop nd.
Proof.
  intros Hl Hh Hnd. rewrite compute_divisible_length_f64_Z by done.
  symmetry. apply compute_divisible_length_Z; [lia|done].
Qed.

End Binary64.

(** Where the two part: from [2^53] on a quotient is rounded, from [2^1024]
    on it overflows, and beyond depth 1074 the second quotient underflows
    to zero. *)
Lemma compute_divisible_length_f64_beyond :
  compute_divisible_length_f64 (2 ^ 53 + 1) 1 0 = Some (2 ^ 53 - 1)
  ∧ compute_divisible_length (2 ^ 53 + 1) 1 0 = Some (2 ^ 53 + 1)
  ∧ compute_divisible_length_f64 (2 ^ 53 + 3) 2 0 = Some (2 ^ 53 + 4)
  ∧ compute_divisible_length_f64 (2 ^ 1024) 1 0 = None
  ∧ compute_divisible_length_f64 5 3 1080 = Some (- 3).
Proof. repeat split; vm_compute; reflexivity. Qed.

(** C1, amended: for every length with 0 <= length < 2^50, every
    hop_length > 0 and every depth with 0 <= num_downsamples <= 1074,
    [compute_divisible_length], evaluated in binary64 as the interpreter
    does, returns a value [r] that is at least
    [length - length mod hop_length] (so at least [length] whenever
    [hop_length] divides [length]), and [r / hop_length + 1] is divisible by
    [2 ^ num_downsamples]; on these inputs it is the value of the exact
    formula. *)
Theorem compute_divisible_length_spec (len hop : Z) (nd : N) :
  0 ≤ len < 2 ^ 50 → 0 < hop → (nd ≤ 1074)%N →
  ∃ r, compute_divisible_length_f64 len hop nd = Some r
       ∧ compute_divisible_length len hop nd = Some r
       ∧ len - len mod hop ≤ r
       ∧ (len mod hop = 0 → len ≤ r)
       ∧ (r / hop + 1) mod 2 ^ Z.of_N nd = 0.
Proof.
  intros Hl Hh Hnd. exists (divisible_length_Z len hop nd).
  destruct (divisible_length_Z_bounds len hop nd (proj1 Hl) Hh)
    as (B1 & _ & _ & B3).
  split; [by apply compute_divisible_length_f64_Z|].
  split; [apply compute_divisible_length_Z; [lia|done]|].
  split; [exact B1|]. split; [lia|exact B3].
Qed.

Lemma compute_divisible_length_spec_witness :
  0 ≤ 1000 < 2 ^ 50 ∧ 0 < 256 ∧ (2 ≤ 1074)%N ∧
  ∃ r, compute_divisible_length_f64 1000 256 2 = Some r
       ∧ compute_divisible_length 1000 256 2 = Some r
       ∧ 1000 - 1000 mod 256 ≤ r
       ∧ (1000 mod 256 = 0 → 1000 ≤ r)
       ∧ (r / 256 + 1) mod 2 ^ Z.of_N 2 = 0.
Proof.
  split; [split; [lia|reflexivity]|]. split; [lia|]. split; [lia|].
  apply (compute_divisible_length_spec 1000 256 2);
    [split; [lia|reflexivity]|lia|lia].
Defined.

(** C1 as stated fails: with length 1000, hop 256 and depth 2 the result is
    768, which is below the length. *)
Lemma compute_divisible_length_below_length :
  compute_divisible_length_f64 1000 256 2 = Some 768
  ∧ compute_divisible_length 1000 256 2 = Some 768
  ∧ ¬ (1000 ≤ 768).
Proof. split; [|split]; [vm_compute; reflexivity..|lia]. Qed.

(** ** Arrays and their rows *)

Section ArrayFacts.
Context {A : Type}.
Implicit Types (d row : list A) (rs : list (list A)).

Lemma split_last_snoc lead n : split_last (lead ++ [n]) = Some (lead, n).
Proof. induction lead as [|d lead IH]; cbn; [done|]. by rewrite IH. Qed.

Lemma split_last_Some s lead n :
  split_last s = Some (lead, n) → s = lead ++ [n].
Proof.
  revert lead. induction s as [|d s IH]; intros lead; cbn; [done|].
  destruct (split_last s) as [[lead' n']|] eqn:E.
  - intros [= <- <-]. cbn. f_equal. by apply IH.
  - intros [= <- <-]. destruct s as [|d' s]; [done|].
    cbn in E. by destruct (split_last s) as [[??]|].
Qed.

Lemma numel_app s1 s2 : numel (s1 ++ s2) = (numel s1 * numel s2)%nat.
Proof.
  unfold numel. induction s1 as [|d s1 IH]; cbn; [lia|]. rewrite IH. lia.
Qed.

Lemma numel_snoc lead n : numel (lead ++ [n]) = (numel lead * n)%nat.
Proof. rewrite numel_app. unfold numel. cbn. lia. Qed.

Lemma numel_cons n s : numel (n :: s) = (n * numel s)%nat.
Proof. reflexivity. Qed.

Lemma length_chunks n k d : length (chunks n k d) = k.
Proof. revert d. induction k as [|k IH]; intros d; cbn; [done|]. by rewrite IH. Qed.

Lemma chunks_uniform n k d :
  length d = (k * n)%nat → Forall (λ row, length row = n) (chunks n k d).
Proof.
  revert d. induction k as [|k IH]; intros d Hd; cbn; constructor;
    rewrite Nat.mul_succ_l in Hd.
  - rewrite length_take. lia.
  - apply IH. rewrite length_drop. lia.
Qed.

Lemma concat_chunks n k d :
  length d = (k * n)%nat → concat (chunks n k d) = d.
Proof.
  revert d. induction k as [|k IH]; intros d Hd; cbn.
  - by destruct d.
  - rewrite Nat.mul_succ_l in Hd.
    rewrite IH by (rewrite length_drop; lia). apply take_drop.
Qed.

Lemma chunks_concat n rs :
  Forall (λ row, length row = n) rs → chunks n (length rs) (concat rs) = rs.
Proof.
  induction 1 as [|row rs Hrow _ IH]; cbn; [done|].
  rewrite take_app_length' by done. rewrite drop_app_length' by done.
  by rewrite IH.
Qed.

Lemma length_concat_uniform n rs :
  Forall (λ row, length row = n) rs → length (concat rs) = (length rs * n)%nat.
Proof.
  induction 1 as [|row rs Hrow _ IH]; cbn; [done|].
  rewrite length_app, IH, Hrow. lia.
Qed.

Lemma rows_snoc (a : ndarray A) lead n :
  shape a = lead ++ [n] → rows a = chunks n (numel lead) (data a).
Proof. intros E. unfold rows. by rewrite E, split_last_snoc. Qed.

Lemma rows_uniform (a : ndarray A) lead n :
  shape a = lead ++ [n] → wf a →
  length (rows a) = numel lead ∧ Forall (λ row, length row = n) (rows a).
Proof.
  intros E W. rewrite (rows_snoc _ _ _ E). split; [apply length_chunks|].
  apply chunks_uniform. red in W. by rewrite W, E, numel_snoc.
Qed.

Lemma concat_rows (a : ndarray A) lead n :
  shape a = lead ++ [n] → wf a → concat (rows a) = data a.
Proof.
  intros E W. rewrite (rows_snoc _ _ _ E). apply concat_chunks.
  red in W. by rewrite W, E, numel_snoc.
Qed.

End ArrayFacts.

(** ** Length aligner *)

Section PaddingFacts.
Context {A : Type} (zero : A).
Implicit Types (x y : ndarray A) (row : list A).

Lemma pad_row_align (pad_end : bool) (n : nat) (t : Z) row :
  length row = n → 0 ≤ t →
  (if pad_end then pad_row zero 0 (t - Z.of_nat n) row
   else pad_row zero (t - Z.of_nat n) 0 row)
  = align_row zero pad_end n (Z.to_nat t) row.
Proof.
  intros Hn Ht. unfold pad_row, align_row.
  destruct pad_end; repeat case_decide; try lia;
    try (replace (Z.to_nat (t - Z.of_nat n)) with 0%nat by lia);
    change (Z.to_nat 0) with 0%nat; cbn [replicate app]; rewrite ?app_nil_r.
  - rewrite Hn. f_equal. lia.
  - rewrite take_ge; [done|lia].
  - do 2 f_equal. lia.
  - f_equal. lia.
  - replace (n - Z.to_nat t)%nat with 0%nat by lia. done.
  - do 2 f_equal. lia.
Qed.

Lemma length_align_row pad_end n target row :
  length row = n → length (align_row zero pad_end n target row) = target.
Proof.
  intros Hn. unfold align_row.
  destruct pad_end; case_decide;
    rewrite ?length_take, ?length_drop, ?length_app, ?length_replicate; lia.
Qed.

Lemma align_row_same pad_end n row :
  length row = n → align_row zero pad_end n n row = row.
Proof.
  intros Hn. unfold align_row. rewrite decide_True by lia.
  destruct pad_end; [apply take_ge; lia|].
  by rewrite Nat.sub_diag.
Qed.

(** A one-sided pad to a length that is not negative succeeds, whatever the
    sign of the amount. *)
Lemma F_pad_one_sided x lead n (t : Z) (pad_end : bool) :
  shape x = lead ++ [n] → wf x → 0 ≤ t →
  (if pad_end then F_pad zero x (0, t - Z.of_nat n)
   else F_pad zero x (t - Z.of_nat n, 0))
  = Some (aligned zero pad_end lead n (Z.to_nat t) x).
Proof.
  intros E W Ht.
  destruct (rows_uniform x lead n E W) as [_ U].
  assert (M : (λ row, if pad_end then pad_row zero 0 (t - Z.of_nat n) row
                      else pad_row zero (t - Z.of_nat n) 0 row) <$> rows x
              = align_row zero pad_end n (Z.to_nat t) <$> rows x).
  { apply Forall_fmap_ext. eapply Forall_impl; [exact U|].
    intros row Hrow. cbn in Hrow. by apply pad_row_align. }
  unfold aligned. rewrite <- M. rewrite (rows_snoc x lead n E).
  destruct pad_end; unfold F_pad; rewrite E, split_last_snoc;
    cbn [mbind option_bind];
    rewrite !option_guard_True by lia; cbn [mbind option_bind];
    (replace (Z.of_nat n + 0 + (t - Z.of_nat n)) with t by lia)
    || (replace (Z.of_nat n + (t - Z.of_nat n) + 0) with t by lia);
    reflexivity.
Qed.

(** A one-sided pad to a negative length raises. *)
Lemma F_pad_negative x lead n (t : Z) (pad_end : bool) :
  shape x = lead ++ [n] → t < 0 →
  (if pad_end then F_pad zero x (0, t - Z.of_nat n)
   else F_pad zero x (t - Z.of_nat n, 0)) = None.
Proof.
  intros E Ht.
  destruct pad_end; unfold F_pad; rewrite E, split_last_snoc;
    cbn [mbind option_bind].
  - rewrite option_guard_True by lia. cbn [mbind option_bind].
    rewrite option_guard_False by lia. reflexivity.
  - rewrite (option_guard_False (0 ≤ Z.of_nat n + Z.min (t - Z.of_nat n) 0))
      by lia.
    reflexivity.
Qed.

Lemma aligned_facts pad_end lead n target x :
  shape x = lead ++ [n] → wf x →
  wf (aligned zero pad_end lead n target x)
  ∧ rows (aligned zero pad_end lead n target x)
    = align_row zero pad_end n target <$> rows x.
Proof.
  intros E W. destruct (rows_uniform x lead n E W) as [Hl U].
  assert (U' : Forall (λ row, length row = target)
                 (align_row zero pad_end n target <$> rows x)).
  { apply Forall_fmap. eapply Forall_impl; [exact U|].
    intros row Hrow. by apply length_align_row. }
  split.
  - unfold wf, aligned. cbn [data shape].
    rewrite (length_concat_uniform _ _ U'), length_fmap, Hl, numel_snoc. done.
  - rewrite (rows_snoc _ lead target) by done. unfold aligned. cbn [data].
    rewrite <- Hl, <- (length_fmap (align_row zero pad_end n target)).
    by apply chunks_concat.
Qed.

Lemma aligned_same pad_end lead n x :
  shape x = lead ++ [n] → wf x → aligned zero pad_end lead n n x = x.
Proof.
  intros E W. destruct (rows_uniform x lead n E W) as [_ U].
  unfold aligned.
  assert (M : align_row zero pad_end n n <$> rows x = rows x).
  { rewrite <- (list_fmap_id (rows x)) at 2. apply Forall_fmap_ext.
    eapply Forall_impl; [exact U|]. intros row Hrow.
    by apply align_row_same. }
  rewrite M, (concat_rows x lead n E W), <- E. by destruct x.
Qed.

(** What [pad_to_divisible_length] returns on its domain. *)
Lemma pad_to_divisible_length_aligned x lead n hop nd pad_end :
  shape x = lead ++ [n] → wf x → 0 < hop →
  pad_to_divisible_length zero x hop nd pad_end
  = Some (aligned zero pad_end lead n
            (Z.to_nat (divisible_length_Z (Z.of_nat n) hop nd)) x).
Proof.
  intros E W Hh. unfold pad_to_divisible_length.
  rewrite E, split_last_snoc. cbn [mbind option_bind].
  rewrite compute_divisible_length_Z by lia. cbn [mbind option_bind].
  apply F_pad_one_sided; [done..|].
  apply divisible_length_Z_nonneg; lia.
Qed.

End PaddingFacts.

Section LengthAligner.
Context {A : Type} (zero : A).
Implicit Types (x : ndarray A).



(** C9: on a buffer whose time-axis length already equals the divisible
    length computed from it, [pad_to_divisible_length] pads by zero samples
    and returns the buffer as it is. *)
Theorem pad_to_divisible_length_aligned_input x lead (n : nat) hop nd
    (pad_end : bool) :
  shape x = lead ++ [n] → wf x → 0 < hop →
  compute_divisible_length (Z.of_nat n) hop nd = Some (Z.of_nat n) →
  pad_to_divisible_length zero x hop nd pad_end = Some x
  ∧ ∀ y, pad_to_divisible_length zero x hop nd pad_end = Some y →
         shape y = lead ++ [n].
Proof.
  intros E W Hh Hn.
  rewrite compute_divisible_length_Z in Hn by lia. injection Hn as Hn.
  assert (P : pad_to_divisible_length zero x hop nd pad_end = Some x).
  { rewrite (pad_to_divisible_length_aligned zero x lead n) by done.
    rewrite Hn, Nat2Z.id. f_equal. by apply aligned_same. }
  split; [exact P|]. intros y Hy. rewrite P in Hy. by injection Hy as <-.
Qed.


End LengthAligner.



Lemma pad_to_divisible_length_aligned_input_witness :
  shape (NdArray [1; 4]%nat [5; 6; 7; 8]) = [1%nat] ++ [4%nat]
  ∧ wf (NdArray [1; 4]%nat [5; 6; 7; 8])
  ∧ 0 < 2
  ∧ compute_divisible_length (Z.of_nat 4) 2 0 = Some (Z.of_nat 4)
  ∧ pad_to_divisible_length 0 (NdArray [1; 4]%nat [5; 6; 7; 8]) 2 0 true
    = Some (NdArray [1; 4]%nat [5; 6; 7; 8])
  ∧ ∀ y, pad_to_divisible_length 0 (NdArray [1; 4]%nat [5; 6; 7; 8]) 2 0 true
         = Some y → shape y = [1%nat] ++ [4%nat].
Proof.
  split; [reflexivity|]. split; [reflexivity|]. split; [lia|].
  split; [vm_compute; reflexivity|].
  apply (pad_to_divisible_length_aligned_input 0
           (NdArray [1; 4]%nat [5; 6; 7; 8]) [1%nat] 4%nat 2 0%N true);
    [reflexivity|reflexivity|lia|vm_compute; reflexivity].
Defined.


(** ** Integer input rescaling *)

Lemma iinfo_max_pos dt : 0 < iinfo_max dt.
Proof. by destruct dt. Qed.

Lemma iinfo_min_max dt : - iinfo_max dt - 1 ≤ iinfo_min dt ≤ 0.
Proof. destruct dt; cbn; lia. Qed.

(** Every rescaled sample is finite and at most 1; it is at least -1 unless
    the sample is below the negated maximum of its type. *)
Lemma rescale_integral_bounds dt (a : ndarray Z) :
  np_valid (IntArray dt a) →
  Forall2
    (λ z v, ∃ q, v = Fin q ∧ (q <= 1)%Q
                 ∧ (- iinfo_max dt ≤ z → (- (1) <= q)%Q))
    (data a) (data (rescale_integral (IntArray dt a))).
Proof.
  cbn [np_valid rescale_integral data]. intros V.
  apply Forall2_fmap_r, Forall_Forall2_diag.
  eapply Forall_impl; [exact V|]. cbn beta. intros z [Hlo Hhi].
  pose proof (iinfo_max_pos dt) as Hm.
  assert (Hmq : (0 < inject_Z (iinfo_max dt))%Q).
  { change 0%Q with (inject_Z 0). by rewrite <- Zlt_Qlt. }
  eexists. split; [reflexivity|]. split.
  - apply Qle_shift_div_r; [exact Hmq|]. rewrite Qmult_1_l.
    by rewrite <- Zle_Qle.
  - intros Hz. apply Qle_shift_div_l; [exact Hmq|].
    assert (E : (- (1) * inject_Z (iinfo_max dt)
                 == inject_Z (- iinfo_max dt))%Q).
    { rewrite inject_Z_opp. ring. }
    rewrite E. by rewrite <- Zle_Qle.
Qed.

(** C5: the most negative 16-bit sample, -32768, is rescaled by the maximum
    32767 to -32768/32767, which lies below -1; the same value reaches the
    output of the ingest normalizer. *)
Theorem rescale_integral_below_minus_one :
  np_valid (IntArray Int16 (NdArray [1%nat] [-32768]))
  ∧ rescale_integral (IntArray Int16 (NdArray [1%nat] [-32768]))
    = NdArray [1%nat] [Fin (inject_Z (-32768) / inject_Z 32767)]
  ∧ gradio_audio_preprocessing (λ w _ _, Some w)
      (IntArray Int16 (NdArray [1%nat] [-32768])) 1 1 1 1 0 true
    = Some (NdArray [1; 1; 1]%nat [Fin (inject_Z (-32768) / inject_Z 32767)])
  ∧ (inject_Z (-32768) / inject_Z 32767 < - (1))%Q.
Proof.
  split; [repeat constructor; cbn; lia|].
  split; [reflexivity|]. split; [vm_compute; reflexivity|]. reflexivity.
Qed.

(** ** Gathering along nested index ranges *)

Section GatherFacts.
Context {A : Type}.
Implicit Types (d out : list A) (idxs : list nat).

Lemma gather_length d idxs out :
  gather d idxs = Some out → length out = length idxs.
Proof. intros H. symmetry. by eapply length_mapM. Qed.

Lemma gather_lookup d idxs out k i :
  gather d idxs = Some out → idxs !! k = Some i → out !! k = d !! i.
Proof.
  intros H Hk. apply mapM_Some_1 in H.
  destruct (Forall2_lookup_l _ _ _ _ _ H Hk) as (y & Hy & Hd).
  by rewrite Hy, Hd.
Qed.

Lemma gather_is_Some d idxs :
  Forall (λ i, i < length d)%nat idxs → is_Some (gather d idxs).
Proof.
  intros H. apply mapM_is_Some. eapply Forall_impl; [exact H|].
  intros i Hi. cbn. by apply lookup_lt_is_Some.
Qed.

Lemma gather_seq d : gather d (seq 0 (length d)) = Some d.
Proof.
  apply mapM_Some. apply Forall2_same_length_lookup.
  split; [by rewrite length_seq|].
  intros i x y Hx Hy. apply lookup_seq in Hx as [-> _]. exact Hy.
Qed.

End GatherFacts.

Section NestedRanges.
Context {B : Type}.

(** Blocks of equal length laid out one after the other. *)
Lemma length_bind_seq (f : nat → list B) (m s n : nat) :
  (∀ i, (s ≤ i < s + n)%nat → length (f i) = m) →
  length (seq s n ≫= f) = (n * m)%nat.
Proof.
  revert s. induction n as [|n IH]; intros s Hf; [done|].
  cbn [seq]. rewrite bind_cons, length_app.
  rewrite IH by (intros; apply Hf; lia). rewrite Hf by lia. lia.
Qed.

Lemma lookup_bind_seq (f : nat → list B) (m s n i j : nat) :
  (∀ i, (s ≤ i < s + n)%nat → length (f i) = m) →
  (i < n)%nat → (j < m)%nat →
  (seq s n ≫= f) !! (i * m + j)%nat = f (s + i)%nat !! j.
Proof.
  revert s i. induction n as [|n IH]; intros s i Hf Hi Hj; [lia|].
  cbn [seq]. rewrite bind_cons.
  destruct i as [|i].
  - rewrite lookup_app_l by (rewrite Hf; lia).
    by rewrite Nat.add_0_r.
  - rewrite lookup_app_r by (rewrite Hf; nia).
    rewrite Hf by lia.
    replace (S i * m + j - m)%nat with (i * m + j)%nat by nia.
    rewrite IH by (try (intros; apply Hf); lia).
    by replace (S s + i)%nat with (s + S i)%nat by lia.
Qed.

End NestedRanges.

(** ** Egress: the flattened layout *)

Section ChannelsLast.
Context {A : Type}.

Lemma lookup_bind_seq_singleton (g : nat → nat) (s n i : nat) :
  (i < n)%nat → (seq s n ≫= λ k, [g k]) !! i = Some (g (s + i)%nat).
Proof.
  intros Hi.
  pose proof (lookup_bind_seq (λ k, [g k]) 1 s n i 0) as H.
  rewrite Nat.mul_1_r, Nat.add_0_r in H. by rewrite H by (done || lia).
Qed.

(** The flat positions read by ["b c l -> (l b) c"], in output order. *)
Lemma channels_last_index (B C L b c t : nat) :
  (b < B)%nat → (c < C)%nat → (t < L)%nat →
  (li ← seq 0 L; bi ← seq 0 B; ci ← seq 0 C; [((bi * C + ci) * L + li)%nat])
    !! ((t * B + b) * C + c)%nat
  = Some ((b * C + c) * L + t)%nat.
Proof.
  intros Hb Hc Ht.
  assert (In1 : ∀ li bi, length (seq 0 C ≫= λ ci, [((bi * C + ci) * L + li)%nat])
                         = C).
  { intros li bi. rewrite (length_bind_seq _ 1); [lia|done]. }
  assert (In2 : ∀ li, length (seq 0 B ≫= λ bi, seq 0 C ≫=
                                λ ci, [((bi * C + ci) * L + li)%nat])
                      = (B * C)%nat).
  { intros li. by rewrite (length_bind_seq _ C). }
  replace ((t * B + b) * C + c)%nat with (t * (B * C) + (b * C + c))%nat by lia.
  rewrite (lookup_bind_seq _ (B * C)) by (done || nia).
  rewrite (lookup_bind_seq _ C) by (done || lia).
  by rewrite lookup_bind_seq_singleton.
Qed.

Lemma channels_last_indices_length (B C L : nat) :
  length (li ← seq 0 L; bi ← seq 0 B; ci ← seq 0 C;
          [((bi * C + ci) * L + li)%nat])
  = (L * B * C)%nat.
Proof.
  rewrite (length_bind_seq _ (B * C)); [lia|]. intros li _.
  rewrite (length_bind_seq _ C); [done|]. intros bi _.
  rewrite (length_bind_seq _ 1); [lia|done].
Qed.

Lemma channels_last_indices_bound (B C L : nat) :
  Forall (λ i, i < B * C * L)%nat
    (li ← seq 0 L; bi ← seq 0 B; ci ← seq 0 C;
     [((bi * C + ci) * L + li)%nat]).
Proof.
  apply Forall_forall. intros i Hi.
  apply list_elem_of_bind in Hi as (li & Hi & Hli).
  apply list_elem_of_bind in Hi as (bi & Hi & Hbi).
  apply list_elem_of_bind in Hi as (ci & Hi & Hci).
  apply list_elem_of_singleton in Hi as ->.
  apply elem_of_seq in Hli, Hbi, Hci.
  assert ((bi * C + ci + 1) * L ≤ B * C * L)%nat by (apply Nat.mul_le_mono_r; nia).
  lia.
Qed.

(** ["b c l -> (l b) c"]: the output is time-major, the batch items
    interleaved within each time step. *)
Lemma to_channels_last_spec (audio : ndarray A) (B C L : nat) :
  shape audio = [B; C; L] → wf audio →
  ∃ out, to_channels_last audio = Some out
         ∧ shape out = [(L * B)%nat; C] ∧ wf out
         ∧ ∀ b c t, (b < B)%nat → (c < C)%nat → (t < L)%nat →
             data out !! ((t * B + b) * C + c)%nat
             = data audio !! ((b * C + c) * L + t)%nat.
Proof.
  intros E W. red in W. rewrite E in W. unfold numel in W. cbn in W.
  unfold to_channels_last. rewrite E.
  destruct (gather_is_Some (data audio)
              (li ← seq 0 L; bi ← seq 0 B; ci ← seq 0 C;
               [((bi * C + ci) * L + li)%nat])) as [out Hout].
  { eapply Forall_impl; [apply channels_last_indices_bound|].
    intros i Hi. cbn beta in *. lia. }
  rewrite Hout. eexists. split; [reflexivity|]. cbn [shape data].
  split; [done|]. split.
  - red. cbn [shape data]. rewrite (gather_length _ _ _ Hout).
    rewrite channels_last_indices_length. unfold numel. cbn. lia.
  - intros b c t Hb Hc Ht.
    apply (gather_lookup _ _ _ _ _ Hout). by apply channels_last_index.
Qed.

End ChannelsLast.

(** C6, amended: for a 3-D (batch, channel, time) model output of shape
    (B, C, L) and [target_length = L], the egress denormalizer returns an
    array of shape (L*B, C) in which batch is folded into the time axis
    time-major: the entry at row [t*B + b] and column [c] is the input's
    entry at [b, c, t].  (For B = 1 this is the row [b*L + t] of C6.) *)
Theorem gradio_audio_postprocessing_layout
    (audio : ndarray float) (B C L : nat) (pad_end : bool) :
  shape audio = [B; C; L] → wf audio →
  ∃ out, gradio_audio_postprocessing audio (Z.of_nat L) pad_end = Some out
         ∧ shape out = [(L * B)%nat; C] ∧ wf out
         ∧ ∀ b c t, (b < B)%nat → (c < C)%nat → (t < L)%nat →
             data out !! ((t * B + b) * C + c)%nat
             = data audio !! ((b * C + c) * L + t)%nat.
Proof.
  intros E W. unfold gradio_audio_postprocessing.
  change [B; C; L] with ([B; C] ++ [L]) in E.
  rewrite E, split_last_snoc. cbn [mbind option_bind].
  rewrite (F_pad_one_sided fzero audio [B; C] L (Z.of_nat L) pad_end E W)
    by lia.
  cbn [mbind option_bind]. rewrite Nat2Z.id.
  rewrite (aligned_same fzero pad_end [B; C] L audio E W).
  by apply to_channels_last_spec.
Qed.

Lemma gradio_audio_postprocessing_layout_witness :
  shape (NdArray [2; 1; 2]%nat [Fin 1; Fin 2; Fin 3; Fin 4]) = [2; 1; 2]%nat
  ∧ wf (NdArray [2; 1; 2]%nat [Fin 1; Fin 2; Fin 3; Fin 4])
  ∧ ∃ out,
      gradio_audio_postprocessing
        (NdArray [2; 1; 2]%nat [Fin 1; Fin 2; Fin 3; Fin 4]) (Z.of_nat 2) true
      = Some out
      ∧ shape out = [(2 * 2)%nat; 1%nat] ∧ wf out
      ∧ ∀ b c t, (b < 2)%nat → (c < 1)%nat → (t < 2)%nat →
          data out !! ((t * 2 + b) * 1 + c)%nat
          = data (NdArray [2; 1; 2]%nat [Fin 1; Fin 2; Fin 3; Fin 4])
              !! ((b * 1 + c) * 2 + t)%nat.
Proof.
  split; [reflexivity|]. split; [reflexivity|].
  apply (gradio_audio_postprocessing_layout
           (NdArray [2; 1; 2]%nat [Fin 1; Fin 2; Fin 3; Fin 4]) 2 1 2 true);
    reflexivity.
Defined.

(** C6 as stated fails: with two batch items of two samples each, the
    output row [b*L + t] for [b = 0], [t = 1] holds the first sample of the
    second item, not the second sample of the first. *)
Lemma gradio_audio_postprocessing_not_batch_major :
  gradio_audio_postprocessing
    (NdArray [2; 1; 2]%nat [Fin 1; Fin 2; Fin 3; Fin 4]) 2 true
  = Some (NdArray [4; 1]%nat [Fin 1; Fin 3; Fin 2; Fin 4])
  ∧ [Fin 1; Fin 3; Fin 2; Fin 4] !! ((0 * 2 + 1) * 1 + 0)%nat = Some (Fin 3)
  ∧ [Fin 1; Fin 2; Fin 3; Fin 4] !! ((0 * 1 + 0) * 2 + 1)%nat = Some (Fin 2)
  ∧ Fin 3 ≠ Fin 2.
Proof.
  split; [vm_compute; reflexivity|].
  split; [reflexivity|]. split; [reflexivity|]. discriminate.
Qed.

(** ** Ingest then egress *)

Section RoundTrip.
Variable resample_kernel : ndarray float → Z → Z → option (ndarray float).

Lemma divisible_length_Z_depth_0 (n hop : Z) :
  0 < hop → divisible_length_Z n hop 0 = n - n mod hop.
Proof.
  intros Hh. unfold divisible_length_Z. change (Py.pow2 0) with 1.
  rewrite Z.div_1_r. pose proof (Z.div_mod n hop ltac:(lia)). lia.
Qed.

(** [int((target_length * rate) / rate)] is [target_length]. *)
Lemma rescaled_target_length (n r : Z) :
  0 ≤ n → 0 < r →
  Py.truediv (n * r) r = Some (inject_Z (n * r) / inject_Z r)%Q
  ∧ Py.int (inject_Z (n * r) / inject_Z r) = n.
Proof.
  intros Hn Hr. unfold Py.truediv. rewrite decide_False by lia.
  split; [done|].
  assert (F : Qfloor (inject_Z (n * r) / inject_Z r) = n).
  { rewrite Qfloor_div. apply Z.div_mul. lia. }
  rewrite int_nonneg; [exact F|].
  apply Qle_trans with (inject_Z n).
  - change 0%Q with (inject_Z 0). by rewrite <- Zle_Qle.
  - rewrite <- F at 1. apply Qfloor_le.
Qed.

(** A mono, single-item tensor flattens to its samples as one column. *)
Lemma to_channels_last_mono {A} (audio : ndarray A) (n : nat) :
  shape audio = [1; 1; n]%nat → wf audio →
  to_channels_last audio = Some (NdArray [n; 1%nat] (data audio)).
Proof.
  intros E W.
  destruct (to_channels_last_spec audio 1 1 n E W) as (out & H & Hs & Hw & Hl).
  rewrite H. f_equal. destruct out as [sh d]. cbn [shape data] in *.
  subst sh. rewrite Nat.mul_1_r. f_equal.
  red in W, Hw. rewrite E in W. unfold numel in W, Hw. cbn in W, Hw.
  apply list_eq. intros i. destruct (decide (i < n)%nat) as [Hi|Hi].
  - specialize (Hl 0%nat 0%nat i ltac:(lia) ltac:(lia) Hi).
    replace ((i * 1 + 0) * 1 + 0)%nat with i in Hl by lia.
    replace ((0 * 1 + 0) * n + i)%nat with i in Hl by lia. exact Hl.
  - rewrite !lookup_ge_None_2 by lia. done.
Qed.

Lemma rows_mono {A} (x : ndarray A) (n : nat) :
  shape x = [1; 1; n]%nat → wf x → rows x = [data x].
Proof.
  intros E W. red in W. rewrite E in W. unfold numel in W. cbn in W.
  rewrite (rows_snoc x [1; 1]%nat n E). cbn. by rewrite take_ge by lia.
Qed.

(** C2, amended: for every 1-d floating-point array [x], equal rates
    [r > 0], hop [h > 0] and depth 0, ingest with [target_length = len(x)]
    followed by egress with the same [target_length] and [pad_end] returns
    the array of shape (len(x), 1) that holds [x] with the
    [len(x) mod h] samples at the selected edge replaced by zeros; it holds
    [x] itself when [h] divides [len(x)]. *)
Theorem gradio_roundtrip_spec (x : list float) (r hop : Z) (pad_end : bool) :
  0 < r → 0 < hop →
  ∃ kept : nat,
    Z.of_nat kept = Z.of_nat (length x) - Z.of_nat (length x) mod hop
    ∧ gradio_roundtrip resample_kernel x r hop pad_end
      = Some (NdArray [length x; 1%nat]
                (if pad_end
                 then take kept x ++ replicate (length x - kept) fzero
                 else replicate (length x - kept) fzero
                      ++ drop (length x - kept) x))
    ∧ (Z.of_nat (length x) mod hop = 0 →
       gradio_roundtrip resample_kernel x r hop pad_end
       = Some (NdArray [length x; 1%nat] x)).
Proof.
  intros Hr Hh. set (n := length x).
  pose proof (Z.mod_pos_bound (Z.of_nat n) hop Hh) as Hm.
  pose proof (Z.mod_le (Z.of_nat n) hop ltac:(lia) Hh) as Hm'.
  set (kept := Z.to_nat (Z.of_nat n - Z.of_nat n mod hop)).
  assert (Hk : Z.of_nat kept = Z.of_nat n - Z.of_nat n mod hop)
    by (subst kept; lia).
  set (x1 := NdArray [1; 1; n]%nat x).
  assert (E1 : shape x1 = [1; 1]%nat ++ [n]) by done.
  assert (W1 : wf x1) by (red; unfold numel; cbn; lia).
  set (mid := aligned fzero pad_end [1; 1]%nat n kept x1).
  destruct (aligned_facts fzero pad_end [1; 1]%nat n kept x1 E1 W1)
    as [Wm Rm].
  fold mid in Wm, Rm.
  assert (Em : shape mid = [1; 1]%nat ++ [kept]) by done.
  set (fin := aligned fzero pad_end [1; 1]%nat kept n mid).
  destruct (aligned_facts fzero pad_end [1; 1]%nat kept n mid Em Wm)
    as [Wf Rf].
  assert (Pre : gradio_audio_preprocessing resample_kernel
                  (FloatArray (NdArray [n] x)) r r (Z.of_nat n) hop 0 pad_end
                = Some mid).
  { unfold gradio_audio_preprocessing, AF_resample.
    cbn [rescale_integral to_batched_channel_first shape data mbind option_bind].
    rewrite decide_False by lia. rewrite decide_True by done.
    cbn [mbind option_bind].
    destruct (rescaled_target_length (Z.of_nat n) r ltac:(lia) Hr) as [T I].
    rewrite T. cbn [mbind option_bind]. rewrite I. fold x1. rewrite E1, split_last_snoc.
    cbn [mbind option_bind].
    rewrite (F_pad_one_sided fzero x1 [1; 1]%nat n (Z.of_nat n) pad_end E1 W1)
      by lia.
    cbn [mbind option_bind]. rewrite Nat2Z.id.
    rewrite (aligned_same fzero pad_end [1; 1]%nat n x1 E1 W1).
    rewrite (pad_to_divisible_length_aligned fzero x1 [1; 1]%nat n) by done.
    rewrite divisible_length_Z_depth_0 by done. done. }
  assert (Post : gradio_audio_postprocessing mid (Z.of_nat n) pad_end
                 = Some (NdArray [n; 1%nat] (data fin))).
  { unfold gradio_audio_postprocessing. rewrite Em, split_last_snoc.
    cbn [mbind option_bind].
    rewrite (F_pad_one_sided fzero mid [1; 1]%nat kept (Z.of_nat n) pad_end
               Em Wm) by lia.
    cbn [mbind option_bind]. rewrite Nat2Z.id. fold fin.
    by apply to_channels_last_mono. }
  assert (D : data fin
              = if pad_end then take kept x ++ replicate (n - kept) fzero
                else replicate (n - kept) fzero ++ drop (n - kept) x).
  { subst fin. unfold aligned at 1. cbn [data]. rewrite Rm.
    rewrite (rows_mono x1 n) by done. cbn [fmap list_fmap concat data x1].
    rewrite app_nil_r. unfold align_row.
    rewrite (decide_True (P := (kept ≤ n)%nat)) by lia.
    destruct pad_end; case_decide.
    - replace kept with n by lia. rewrite Nat.sub_diag. cbn [replicate].
      by rewrite app_nil_r, take_take, Nat.min_id.
    - done.
    - replace kept with n by lia. by rewrite Nat.sub_diag.
    - done. }
  exists kept. split; [exact Hk|].
  assert (RT : gradio_roundtrip resample_kernel x r hop pad_end
               = Some (NdArray [n; 1%nat] (data fin))).
  { unfold gradio_roundtrip. fold n. rewrite Pre. exact Post. }
  split; [by rewrite RT, D|].
  intros Hdiv. rewrite RT, D. do 2 f_equal.
  replace kept with n by lia. rewrite Nat.sub_diag. cbn [replicate drop].
  destruct pad_end; [|done]. rewrite app_nil_r. apply take_ge. lia.
Qed.

End RoundTrip.

Lemma gradio_roundtrip_spec_witness :
  0 < 5 ∧ 0 < 2 ∧
  ∃ kept : nat,
    Z.of_nat kept
    = Z.of_nat (length [Fin 1; Fin 2; Fin 3])
      - Z.of_nat (length [Fin 1; Fin 2; Fin 3]) mod 2
    ∧ gradio_roundtrip (λ w _ _, Some w) [Fin 1; Fin 2; Fin 3] 5 2 true
      = Some (NdArray [length [Fin 1; Fin 2; Fin 3]; 1%nat]
                (if true
                 then take kept [Fin 1; Fin 2; Fin 3]
                      ++ replicate (length [Fin 1; Fin 2; Fin 3] - kept) fzero
                 else replicate (length [Fin 1; Fin 2; Fin 3] - kept) fzero
                      ++ drop (length [Fin 1; Fin 2; Fin 3] - kept)
                           [Fin 1; Fin 2; Fin 3]))
    ∧ (Z.of_nat (length [Fin 1; Fin 2; Fin 3]) mod 2 = 0 →
       gradio_roundtrip (λ w _ _, Some w) [Fin 1; Fin 2; Fin 3] 5 2 true
       = Some (NdArray [length [Fin 1; Fin 2; Fin 3]; 1%nat]
                 [Fin 1; Fin 2; Fin 3])).
Proof.
  split; [lia|]. split; [lia|].
  apply (gradio_roundtrip_spec (λ w _ _, Some w) [Fin 1; Fin 2; Fin 3] 5 2 true);
    lia.
Defined.

(** C2 as stated fails: three samples with hop 2 come back with the last
    one replaced by zero. *)
Lemma gradio_roundtrip_loses_tail :
  gradio_roundtrip (λ w _ _, Some w) [Fin 1; Fin 2; Fin 3] 5 2 true
  = Some (NdArray [3; 1]%nat [Fin 1; Fin 2; Fin 0])
  ∧ ¬ Forall2 feq [Fin 1; Fin 2; Fin 0] [Fin 1; Fin 2; Fin 3].
Proof.
  split; [vm_compute; reflexivity|].
  intros H. apply Forall2_cons_1 in H as [_ H].
  apply Forall2_cons_1 in H as [_ H]. apply Forall2_cons_1 in H as [H _].
  cbn in H. discriminate H.
Qed.

(** ** Amplitude scaler *)

Section Scaler.
Implicit Types (h : heap) (t : ndarray float) (qs : list Q).

Lemma bind_run {X Y} (m : M X) (k : X → M Y) h (a : X) h' :
  m h = Some (a, h') → bind m k h = k a h'.
Proof. intros H. unfold bind. by rewrite H. Qed.

Lemma bind_raise {X Y} (m : M X) (k : X → M Y) h :
  m h = None → bind m k h = None.
Proof. intros H. unfold bind. by rewrite H. Qed.

Lemma deref_run h (r : ref) t : h !! r = Some t → deref r h = Some (t, h).
Proof. intros H. unfold deref. by rewrite H. Qed.

Lemma lookup_alloc h t : (h ++ [t]) !! length h = Some t.
Proof. rewrite lookup_app_r by lia. by rewrite Nat.sub_diag. Qed.

Lemma lookup_alloc_old h t (r : ref) u :
  h !! r = Some u → (h ++ [t]) !! r = Some u.
Proof. intros H. by apply lookup_app_l_Some. Qed.

Lemma tensor_abs_run h (x : ref) t :
  h !! x = Some t → tensor_abs x h = Some (length h, h ++ [torch_abs t]).
Proof.
  intros H. unfold tensor_abs. by rewrite (bind_run _ _ _ _ _ (deref_run _ _ _ H)).
Qed.

Lemma tensor_max_run h (x : ref) t m :
  h !! x = Some t → max_all (data t) = Some m →
  tensor_max x h = Some (length h, h ++ [NdArray [] [m]]).
Proof.
  intros H Hm. unfold tensor_max.
  rewrite (bind_run _ _ _ _ _ (deref_run _ _ _ H)). by rewrite Hm.
Qed.

Lemma tensor_max_empty h (x : ref) t :
  h !! x = Some t → data t = [] → tensor_max x h = None.
Proof.
  intros H Hd. unfold tensor_max.
  rewrite (bind_run _ _ _ _ _ (deref_run _ _ _ H)). by rewrite Hd.
Qed.

Lemma tensor_div_run h (x m : ref) t v :
  h !! x = Some t → h !! m = Some (NdArray [] [v]) →
  tensor_div x m h = Some (length h, h ++ [torch_div_scalar t v]).
Proof.
  intros H Hm. unfold tensor_div.
  rewrite (bind_run _ _ _ _ _ (deref_run _ _ _ H)).
  by rewrite (bind_run _ _ _ _ _ (deref_run _ _ _ Hm)).
Qed.

Lemma tensor_mul_run h (x : ref) t c :
  h !! x = Some t →
  tensor_mul x c h = Some (length h, h ++ [torch_mul_scalar t c]).
Proof.
  intros H. unfold tensor_mul. by rewrite (bind_run _ _ _ _ _ (deref_run _ _ _ H)).
Qed.

(** One run of [max_abs_scaling] on a store that holds [x]: four tensors
    are allocated after the existing ones, the last is the result. *)
Lemma max_abs_scaling_run h (x : ref) t (c m : float) :
  h !! x = Some t →
  max_all (data (torch_abs t)) = Some m →
  max_abs_scaling x c h
  = Some ((length h + 3)%nat,
          h ++ [torch_abs t; NdArray [] [m]; torch_div_scalar t m;
                torch_mul_scalar (torch_div_scalar t m) c]).
Proof.
  intros Hx Hm. unfold max_abs_scaling.
  rewrite (bind_run _ _ _ _ _ (tensor_abs_run h x t Hx)).
  rewrite (bind_run _ _ _ _ _
             (tensor_max_run _ _ _ m (lookup_alloc h (torch_abs t)) Hm)).
  set (h1 := h ++ [torch_abs t]).
  set (h2 := h1 ++ [NdArray [] [m]]).
  assert (Hx2 : h2 !! x = Some t) by (by do 2 apply lookup_alloc_old).
  rewrite (bind_run _ _ _ _ _
             (tensor_div_run h2 x (length h1) t m Hx2 (lookup_alloc h1 _))).
  set (h3 := h2 ++ [torch_div_scalar t m]).
  rewrite (bind_run _ _ _ _ _
             (tensor_mul_run h3 (length h2) _ c (lookup_alloc h2 _))).
  unfold ret. subst h3 h2 h1. rewrite !length_app. cbn [length].
  rewrite <- !(assoc_L (++)). cbn [app]. do 2 f_equal. lia.
Qed.

(** A run on an empty tensor raises: [max()] has nothing to reduce. *)
Lemma max_abs_scaling_empty h (x : ref) sh (c : float) :
  h !! x = Some (NdArray sh []) → max_abs_scaling x c h = None.
Proof.
  intros Hx. unfold max_abs_scaling.
  rewrite (bind_run _ _ _ _ _ (tensor_abs_run h x _ Hx)).
  apply bind_raise.
  by apply (tensor_max_empty _ _ _ (lookup_alloc h _)).
Qed.

(** The maximum of finite values is one of them and bounds them all. *)
Lemma foldl_fmax_Fin (a : Q) qs :
  ∃ m, foldl fmax (Fin a) (Fin <$> qs) = Fin m
       ∧ (m = a ∨ m ∈ qs) ∧ (a <= m)%Q ∧ Forall (λ q, (q <= m)%Q) qs.
Proof.
  revert a. induction qs as [|q qs IH]; intros a; cbn [fmap list_fmap foldl].
  - exists a. split; [done|]. split; [by left|]. split; [apply Qle_refl|done].
  - cbn [fmax]. destruct (Qle_bool a q) eqn:Hle.
    + apply Qle_bool_iff in Hle.
      destruct (IH q) as (m & E & Hin & Hq & Hall). exists m.
      split; [exact E|]. split; [|split].
      * right. destruct Hin as [->|Hin]; [left|by right].
      * by apply Qle_trans with q.
      * by constructor.
    + assert (Hlt : (q <= a)%Q).
      { apply Qnot_lt_le. intros C. apply Qlt_le_weak in C.
        apply Qle_bool_iff in C. congruence. }
      destruct (IH a) as (m & E & Hin & Hq & Hall). exists m.
      split; [exact E|]. split; [|split; [exact Hq|]].
      * destruct Hin as [->|Hin]; [by left|right; by right].
      * constructor; [by apply Qle_trans with a|exact Hall].
Qed.

Lemma max_all_Fin q qs :
  ∃ m, max_all (Fin <$> (q :: qs)) = Some (Fin m)
       ∧ m ∈ q :: qs ∧ Forall (λ v, (v <= m)%Q) (q :: qs).
Proof.
  destruct (foldl_fmax_Fin q qs) as (m & E & Hin & Hq & Hall).
  exists m. cbn [fmap list_fmap max_all]. rewrite E.
  split; [done|]. split; [|by constructor].
  destruct Hin as [->|Hin]; [left|by right].
Qed.

Lemma Qabs_scaled (q m c : Q) :
  (0 < m)%Q → (0 <= c)%Q → (Qabs (q / m * c) == Qabs q / m * c)%Q.
Proof.
  intros Hm Hc. unfold Qdiv. rewrite !Qabs_Qmult, Qabs_Qinv.
  rewrite (Qabs_pos m) by (by apply Qlt_le_weak).
  rewrite (Qabs_pos c) by done. reflexivity.
Qed.

Lemma Qabs_scaled_le (q m c : Q) :
  (0 < m)%Q → (0 <= c)%Q → (Qabs q <= m)%Q → (Qabs (q / m * c) <= c)%Q.
Proof.
  intros Hm Hc Hq. rewrite Qabs_scaled by done.
  apply Qle_trans with (1 * c)%Q.
  - apply Qmult_le_compat_r; [|done].
    apply Qle_shift_div_r; [done|]. by rewrite Qmult_1_l.
  - rewrite Qmult_1_l. apply Qle_refl.
Qed.

Lemma Qabs_scaled_peak (q m c : Q) :
  (0 < m)%Q → (0 <= c)%Q → (Qabs q == m)%Q → (Qabs (q / m * c) == c)%Q.
Proof.
  intros Hm Hc Hq. rewrite Qabs_scaled by done. rewrite Hq.
  field. intros E. rewrite E in Hm. by apply Qlt_irrefl in Hm.
Qed.

(** Dividing finite samples by a positive finite peak and multiplying by a
    finite target stays finite. *)
Lemma scale_finite qs (m c : Q) :
  (0 < m)%Q →
  data (torch_mul_scalar (torch_div_scalar (NdArray [] (Fin <$> qs)) (Fin m))
          (Fin c))
  = Fin <$> ((λ q, q / m * c)%Q <$> qs).
Proof.
  intros Hm. cbn [torch_mul_scalar torch_div_scalar data].
  rewrite <- !list_fmap_compose. apply list_fmap_ext. intros i q _.
  cbn [compose fdiv fmul]. apply Qgt_alt in Hm. by rewrite Hm.
Qed.


End Scaler.




(** C10: for every buffer of finite samples with at least one non-zero
    sample, the buffer returned by [max_abs_scaling(buffer, 0.05)] has
    global maximum absolute value 0.05 in exact arithmetic, and the call
    leaves the input buffer, and every other tensor of the store, as it
    was. *)
Theorem max_abs_scaling_peak
    (h : heap) (x : ref) (sh : list nat) (qs : list Q) :
  h !! x = Some (NdArray sh (Fin <$> qs)) →
  Exists (λ q, ¬ (q == 0)%Q) qs →
  ∃ r h' out peak,
    max_abs_scaling x default_max_abs_value h = Some (r, h')
    ∧ h' !! r = Some out ∧ shape out = sh
    ∧ max_all (data (torch_abs out)) = Some (Fin peak)
    ∧ (peak == 1 # 20)%Q
    ∧ h' !! x = Some (NdArray sh (Fin <$> qs))
    ∧ ∀ r' t, h !! r' = Some t → h' !! r' = Some t.
Proof.
  intros Hx Hnz. set (c := (1 # 20)%Q).
  assert (Hc : (0 <= c)%Q) by done.
  destruct qs as [|q0 qs0]; [by apply Exists_nil in Hnz|].
  set (qs := q0 :: qs0) in *.
  (* the peak of the input *)
  destruct (max_all_Fin (Qabs q0) (Qabs <$> qs0)) as (m & Hm & Hin & Hub).
  change (Qabs q0 :: (Qabs <$> qs0)) with (Qabs <$> qs) in Hm, Hin, Hub.
  apply list_elem_of_fmap in Hin as (qm & Hqm & Hin).
  rewrite Forall_fmap, Forall_forall in Hub.
  assert (Hpos : (0 < m)%Q).
  { apply Exists_exists in Hnz as (q1 & Hq1 & Hne).
    apply Qlt_le_trans with (Qabs q1); [|by apply Hub].
    apply Qnot_le_lt. intros Hle. apply Hne.
    apply Qabs_Qle_condition in Hle as [H1 H2].
    by apply Qle_antisym. }
  assert (Ha : max_all (data (torch_abs (NdArray sh (Fin <$> qs))))
               = Some (Fin m)).
  { rewrite <- Hm. cbn [torch_abs data]. f_equal.
    rewrite <- !list_fmap_compose. by apply list_fmap_ext. }
  pose proof (max_abs_scaling_run h x _ (Fin c) _ Hx Ha) as Run.
  pose proof (scale_finite qs m c Hpos) as D.
  cbn [torch_mul_scalar torch_div_scalar data] in D.
  (* the peak of the output *)
  destruct (max_all_Fin (Qabs (q0 / m * c))
              (Qabs <$> ((λ q, q / m * c)%Q <$> qs0)))
    as (p & Hp & Hpin & Hpub).
  change (Qabs (q0 / m * c) :: (Qabs <$> ((λ q, q / m * c)%Q <$> qs0)))
    with (Qabs <$> ((λ q, q / m * c)%Q <$> qs)) in Hp, Hpin, Hpub.
  rewrite <- list_fmap_compose in Hpin, Hpub.
  apply list_elem_of_fmap in Hpin as (qp & Hqp & Hpin).
  rewrite Forall_fmap, Forall_forall in Hpub.
  assert (Hpeak : (p == c)%Q).
  { apply Qle_antisym.
    - rewrite Hqp. cbn [compose]. apply Qabs_scaled_le; [done..|].
      by apply Hub.
    - specialize (Hpub qm Hin). cbn [compose] in Hpub.
      rewrite <- (Qabs_scaled_peak qm m c); [exact Hpub|done..|].
      by rewrite Hqm. }
  eexists _, _, _, p. split; [exact Run|].
  split.
  { rewrite lookup_app_r by lia.
    replace (length h + 3 - length h)%nat with 3%nat by lia. reflexivity. }
  split; [reflexivity|]. split.
  { rewrite <- Hp. cbn [torch_abs torch_mul_scalar torch_div_scalar data].
    rewrite D. f_equal. rewrite <- !list_fmap_compose.
    by apply list_fmap_ext. }
  split; [exact Hpeak|].
  split; [by apply lookup_app_l_Some|].
  intros r' t Hr'. by apply lookup_app_l_Some.
Qed.

Lemma max_abs_scaling_peak_witness :
  [NdArray [2%nat] (Fin <$> [2; - (4)]%Q)] !! 0%nat
  = Some (NdArray [2%nat] (Fin <$> [2; - (4)]%Q))
  ∧ Exists (λ q, ¬ (q == 0)%Q) [2; - (4)]%Q
  ∧ ∃ r h' out peak,
      max_abs_scaling 0%nat default_max_abs_value
        [NdArray [2%nat] (Fin <$> [2; - (4)]%Q)] = Some (r, h')
      ∧ h' !! r = Some out ∧ shape out = [2%nat]
      ∧ max_all (data (torch_abs out)) = Some (Fin peak)
      ∧ (peak == 1 # 20)%Q
      ∧ h' !! 0%nat = Some (NdArray [2%nat] (Fin <$> [2; - (4)]%Q))
      ∧ ∀ r' t, [NdArray [2%nat] (Fin <$> [2; - (4)]%Q)] !! r' = Some t →
                h' !! r' = Some t.
Proof.
  split; [reflexivity|]. split; [by left|].
  apply (max_abs_scaling_peak [NdArray [2%nat] (Fin <$> [2; - (4)]%Q)]
           0%nat [2%nat] [2; - (4)]%Q); [reflexivity|by left].
Defined.

(** ** Mask builder *)

Section ParseFacts.

Lemma split_on_no_sep (sep : ascii) (s : string) :
  Forall (λ p, sep ∉ list_ascii_of_string p) (split_on sep s).
Proof.
  induction s as [|c s IH]; cbn [split_on].
  - constructor; [|done]. cbn. apply not_elem_of_nil.
  - case_decide as Hc.
    + constructor; [|exact IH]. cbn. apply not_elem_of_nil.
    + destruct (split_on sep s) as [|p ps].
      * constructor; [|done]. cbn. rewrite list_elem_of_singleton. congruence.
      * apply Forall_cons in IH as [Hp Hps]. constructor; [|exact Hps].
        cbn. rewrite elem_of_cons. intros [->|H]; [done|by apply Hp].
Qed.

Lemma lstrip_elem_of (c : ascii) cs : c ∈ lstrip cs → c ∈ cs.
Proof.
  induction cs as [|c' cs IH]; cbn [lstrip]; [done|].
  destruct (is_space c'); [|done]. intros H. right. by apply IH.
Qed.

Lemma strip_elem_of (c : ascii) cs : c ∈ strip cs → c ∈ cs.
Proof.
  unfold strip. rewrite elem_of_reverse. intros H.
  apply lstrip_elem_of in H. rewrite elem_of_reverse in H.
  by apply lstrip_elem_of.
Qed.

Lemma digit_value_nonneg c v : digit_value c = Some v → 0 ≤ v.
Proof.
  unfold digit_value.
  destruct (48 <=? nat_of_ascii c)%nat eqn:H1; cbn [andb]; [|done].
  destruct (nat_of_ascii c <=? 57)%nat; [|done].
  intros [= <-]. apply Nat.leb_le in H1. lia.
Qed.

Lemma parse_digits_nonneg cs acc b v :
  0 ≤ acc → parse_digits acc b cs = Some v → 0 ≤ v.
Proof.
  revert acc b. induction cs as [|c cs IH]; intros acc b Ha; cbn [parse_digits].
  - destruct b; [|done]. by intros [= <-].
  - destruct (digit_value c) as [d|] eqn:Hd.
    + apply digit_value_nonneg in Hd. apply IH. lia.
    + case_decide; [|done]. destruct b; [|done]. by apply IH.
Qed.

(** A string without a minus sign does not parse to a negative integer. *)
Lemma int_of_string_nonneg s v :
  "-"%char ∉ list_ascii_of_string s → int_of_string s = Some v → 0 ≤ v.
Proof.
  intros Hs. unfold int_of_string. cbv zeta. case_decide; [done|].
  destruct (strip (list_ascii_of_string s)) as [|c cs] eqn:E; [done|].
  case_decide; [apply parse_digits_nonneg; lia|].
  case_decide as Hm; [|apply parse_digits_nonneg; lia].
  exfalso. apply Hs. apply strip_elem_of. rewrite E, Hm. by left.
Qed.

Lemma parse_interval_nonneg m s e :
  parse_interval m = Some (s, e) → 0 ≤ s ∧ 0 ≤ e.
Proof.
  unfold parse_interval. pose proof (split_on_no_sep "-" m) as Hp.
  destruct (split_on "-" m) as [|a [|b [|??]]]; try done.
  apply Forall_cons in Hp as [Ha Hp]. apply Forall_cons in Hp as [Hb _].
  destruct (int_of_string a) as [s'|] eqn:Es; [|done].
  destruct (int_of_string b) as [e'|] eqn:Ee; [|done].
  cbn. intros [= <- <-].
  split; [exact (int_of_string_nonneg a s' Ha Es)
         |exact (int_of_string_nonneg b e' Hb Ee)].
Qed.

Lemma parse_mask_spec_nonneg spec ivs :
  parse_mask_spec spec = Some ivs →
  Forall (λ iv, 0 ≤ iv.1 ∧ 0 ≤ iv.2) ivs.
Proof.
  unfold parse_mask_spec. intros H. apply mapM_Some_1 in H.
  induction H as [|m [s e] ms ivs Hm _ IH]; constructor; [|exact IH].
  by apply parse_interval_nonneg in Hm.
Qed.

End ParseFacts.

Section MaskFacts.
Context {A : Type} (one zero : A).
Implicit Types (mask : ndarray A) (f : nat → bool).

Lemma assign_zero_slice_spec mask n rest f (s e : Z) :
  0 ≤ s → 0 ≤ e → mask_of one zero n rest f mask →
  ∃ mask', assign_zero_slice zero mask s e = Some mask'
           ∧ mask_of one zero n rest
               (λ t, (s <=? Z.of_nat t) && (Z.of_nat t <? e) || f t) mask'.
Proof.
  intros Hs He (Hsh & Hlen & Hd). unfold assign_zero_slice. rewrite Hsh.
  unfold slice_bound, mask_of.
  rewrite (decide_False (P := s < 0)), (decide_False (P := e < 0)) by lia.
  remember (Z.to_nat (Z.min s (Z.of_nat n))) as lo eqn:Elo.
  remember (Z.to_nat (Z.min e (Z.of_nat n))) as hi eqn:Ehi.
  set (st := numel rest) in *.
  assert (Hlo : (lo ≤ n)%nat) by lia. assert (Hhi : (hi ≤ n)%nat) by lia.
  case_decide as Hlt.
  - eexists. split; [reflexivity|]. cbn [shape data].
    pose proof (Nat.mul_le_mono_r lo hi st ltac:(lia)) as M1.
    pose proof (Nat.mul_le_mono_r hi n st Hhi) as M2.
    assert (Ht : length (take (lo * st) (data mask)) = (lo * st)%nat)
      by (rewrite length_take; lia).
    assert (Hr : ((hi - lo) * st = hi * st - lo * st)%nat)
      by apply Nat.mul_sub_distr_r.
    split; [done|]. split.
    { rewrite !length_app, Ht, length_replicate, length_drop. lia. }
    intros t j Htn Hj.
    destruct (decide (t < lo)%nat) as [Hc|Hc];
      [|destruct (decide (t < hi)%nat) as [Hc'|Hc']].
    + pose proof (Nat.mul_le_mono_r (S t) lo st ltac:(lia)) as M3.
      rewrite Nat.mul_succ_l in M3.
      rewrite lookup_app_l by lia. rewrite lookup_take_lt by lia.
      rewrite (Hd t j Htn Hj).
      destruct (Z.leb_spec s (Z.of_nat t)); [lia|done].
    + pose proof (Nat.mul_le_mono_r lo t st ltac:(lia)) as M3.
      pose proof (Nat.mul_le_mono_r (S t) hi st ltac:(lia)) as M4.
      rewrite Nat.mul_succ_l in M4.
      rewrite lookup_app_r by lia. rewrite Ht.
      rewrite lookup_app_l by (rewrite length_replicate; lia).
      rewrite lookup_replicate_2 by lia.
      destruct (Z.leb_spec s (Z.of_nat t)); [|lia].
      destruct (Z.ltb_spec (Z.of_nat t) e); [done|lia].
    + pose proof (Nat.mul_le_mono_r hi t st ltac:(lia)) as M3.
      rewrite lookup_app_r by lia. rewrite Ht.
      rewrite lookup_app_r by (rewrite length_replicate; lia).
      rewrite length_replicate, lookup_drop.
      replace (hi * st + (t * st + j - lo * st - (hi - lo) * st))%nat
        with (t * st + j)%nat by lia.
      rewrite (Hd t j Htn Hj).
      destruct (Z.ltb_spec (Z.of_nat t) e); [lia|].
      by rewrite andb_false_r.
  - eexists. split; [reflexivity|]. split; [done|]. split; [done|].
    intros t j Htn Hj. rewrite (Hd t j Htn Hj).
    destruct (Z.leb_spec s (Z.of_nat t)); [|done].
    destruct (Z.ltb_spec (Z.of_nat t) e); [lia|done].
Qed.

Lemma int_seconds (sec : Z) (sr : Q) :
  0 ≤ sec → (0 < sr)%Q →
  Py.int (inject_Z sec * sr) = Qfloor (inject_Z sec * sr)
  ∧ 0 ≤ Qfloor (inject_Z sec * sr).
Proof.
  intros Hs Hr.
  assert (H0 : (0 <= inject_Z sec * sr)%Q).
  { apply Qmult_le_0_compat; [|by apply Qlt_le_weak].
    change 0%Q with (inject_Z 0). by rewrite <- Zle_Qle. }
  split; [by apply int_nonneg|].
  change 0 with (Qfloor 0). by apply Qfloor_resp_le.
Qed.

Lemma zero_intervals_spec (sr : Q) ivs :
  (0 < sr)%Q → Forall (λ iv, 0 ≤ iv.1 ∧ 0 ≤ iv.2) ivs →
  ∀ mask n rest f, mask_of one zero n rest f mask →
  ∃ mask', zero_intervals zero sr ivs mask = Some mask'
           ∧ mask_of one zero n rest (λ t, masked sr ivs t || f t) mask'.
Proof.
  intros Hr. induction 1 as [|[s e] ivs [Hs He] _ IH]; intros mask n rest f Hm.
  - exists mask. split; [done|]. exact Hm.
  - cbn [zero_intervals]. cbn [fst snd] in Hs, He.
    destruct (int_seconds s sr Hs Hr) as [-> Hs'].
    destruct (int_seconds e sr He Hr) as [-> He'].
    destruct (assign_zero_slice_spec mask n rest f _ _ Hs' He' Hm)
      as (mask1 & -> & Hm1).
    cbn [mbind option_bind].
    destruct (IH mask1 n rest _ Hm1) as (mask' & -> & Hsh & Hlen & Hd).
    exists mask'. split; [done|]. split; [done|]. split; [done|].
    intros t j Ht Hj. rewrite (Hd t j Ht Hj). unfold masked.
    cbn [existsb]. f_equal.
    destruct (existsb _ ivs),
      (Qfloor (inject_Z s * sr) <=? Z.of_nat t),
      (Z.of_nat t <? Qfloor (inject_Z e * sr)), (f t); reflexivity.
Qed.

Lemma ones_like_mask_of (audio : ndarray A) n rest :
  shape audio = n :: rest → mask_of one zero n rest (λ _, false) (ones_like one audio).
Proof.
  intros E. unfold ones_like. rewrite E. split; [done|]. cbn [data].
  rewrite length_replicate, numel_cons. split; [done|].
  intros t j Ht Hj. apply lookup_replicate_2.
  pose proof (Nat.mul_le_mono_r (S t) n (numel rest) ltac:(lia)) as M.
  rewrite Nat.mul_succ_l in M. lia.
Qed.

Lemma masked_inject_Z (sample_rate : Z) ivs t :
  masked (inject_Z sample_rate) ivs t = masked_int sample_rate ivs t.
Proof.
  unfold masked, masked_int. induction ivs as [|[s e] ivs IH]; [done|].
  cbn [existsb]. rewrite IH. f_equal.
  assert (F : ∀ z, Qfloor (inject_Z z * inject_Z sample_rate) = z * sample_rate).
  { intros z. rewrite <- inject_Z_mult. apply Qfloor_Z. }
  by rewrite !F.
Qed.

(** C8: for every array with time as its leading axis, every integer
    sample_rate > 0 and every interval spec that parses, the mask has the
    shape of the input, is 0 exactly at the time indices [t] with
    [start*sample_rate <= t < end*sample_rate] for some listed interval, on
    every position of the other axes, and 1 elsewhere; an interval that
    reaches beyond the buffer neither fails nor changes the size of the
    mask. *)
Theorem generate_gradio_audio_mask_spec
    (audio : ndarray A) (n : nat) (rest : list nat) (sample_rate : Z)
    (spec : string) (ivs : list (Z * Z)) :
  shape audio = n :: rest → 0 < sample_rate →
  parse_mask_spec spec = Some ivs →
  ∃ mask,
    generate_gradio_audio_mask one zero audio (inject_Z sample_rate) spec
    = Some mask
    ∧ shape mask = shape audio ∧ wf mask
    ∧ ∀ t j, (t < n)%nat → (j < numel rest)%nat →
        data mask !! (t * numel rest + j)%nat
        = Some (if masked_int sample_rate ivs t then zero else one).
Proof.
  intros E Hr Hp. unfold generate_gradio_audio_mask. rewrite Hp.
  cbn [mbind option_bind].
  assert (Hq : (0 < inject_Z sample_rate)%Q)
    by (change 0%Q with (inject_Z 0); by rewrite <- Zlt_Qlt).
  destruct (zero_intervals_spec (inject_Z sample_rate) ivs Hq
              (parse_mask_spec_nonneg spec ivs Hp)
              (ones_like one audio) n rest _ (ones_like_mask_of audio n rest E))
    as (mask & -> & Hsh & Hlen & Hd).
  exists mask. split; [done|]. split; [by rewrite Hsh, E|].
  split; [red; by rewrite Hlen, Hsh, numel_cons|].
  intros t j Ht Hj. rewrite (Hd t j Ht Hj).
  by rewrite orb_false_r, masked_inject_Z.
Qed.

End MaskFacts.

Lemma generate_gradio_audio_mask_spec_witness :
  shape (NdArray [10%nat] (replicate 10 0)) = 10%nat :: []
  ∧ 0 < 1
  ∧ parse_mask_spec "2-5" = Some [(2, 5)]
  ∧ ∃ mask,
      generate_gradio_audio_mask 1 0 (NdArray [10%nat] (replicate 10 0))
        (inject_Z 1) "2-5"
      = Some mask
      ∧ shape mask = shape (NdArray [10%nat] (replicate 10 0)) ∧ wf mask
      ∧ ∀ t j, (t < 10)%nat → (j < numel [])%nat →
          data mask !! (t * numel [] + j)%nat
          = Some (if masked_int 1 [(2, 5)] t then 0 else 1).
Proof.
  split; [reflexivity|]. split; [lia|].
  split; [vm_compute; reflexivity|].
  apply (generate_gradio_audio_mask_spec 1 0 (NdArray [10%nat] (replicate 10 0))
           10%nat [] 1 "2-5" [(2, 5)]);
    [reflexivity|lia|vm_compute; reflexivity].
Defined.

(** The two scenarios of the mask builder: [zeros(10)] at rate 1 with
    ["2-5"], and 50 samples at rate 10 with ["0-1,3-4"]. *)
Lemma generate_gradio_audio_mask_scenarios :
  generate_gradio_audio_mask 1 0 (NdArray [10%nat] (replicate 10 0)) 1 "2-5"
  = Some (NdArray [10%nat] [1; 1; 0; 0; 0; 1; 1; 1; 1; 1])
  ∧ generate_gradio_audio_mask 1 0 (NdArray [50%nat] (replicate 50 0)) 10
      "0-1,3-4"
    = Some (NdArray [50%nat]
              (replicate 10 0 ++ replicate 20 1 ++ replicate 10 0
               ++ replicate 10 1)).
Proof. split; vm_compute; reflexivity. Qed.

(** What [int()] refuses: a control character between the file separator
    and the unit separator (28 to 31) is not whitespace to it, and a text of
    more than 4300 digits is too long. *)
Lemma parse_mask_spec_refuses :
  parse_mask_spec (String (ascii_of_nat 28) "2-5") = None
  ∧ parse_mask_spec " 2 - 5 " = Some [(2, 5)]
  ∧ int_of_string (string_of_list_ascii (replicate 4300 "1"%char)) ≠ None
  ∧ int_of_string (string_of_list_ascii (replicate 4301 "1"%char)) = None.
Proof.
  split; [vm_compute; reflexivity|]. split; [vm_compute; reflexivity|].
  split; [|vm_compute; reflexivity].
  destruct (int_of_string _) eqn:E; [done|]. vm_compute in E. discriminate E.
Qed.

(** * Further properties *)

(** ** Divisibility calculator: order, fixed points, minimality *)

Section DivisibilityOrder.

(** The least multiple of [p] that is at least [f]. *)
Lemma round_up_least (f p k : Z) :
  0 < p → f ≤ k * p → (f + p - 1) / p * p ≤ k * p.
Proof.
  intros Hp Hk.
  assert ((f + p - 1) / p < k + 1); [|nia].
  apply Z.div_lt_upper_bound; lia.
Qed.

Lemma round_up_mono (f g p : Z) :
  0 < p → f ≤ g → (f + p - 1) / p * p ≤ (g + p - 1) / p * p.
Proof.
  intros Hp Hfg. apply Z.mul_le_mono_nonneg_r; [lia|].
  apply Z.div_le_mono; lia.
Qed.

Lemma round_up_fixed (f p : Z) :
  0 < p → f mod p = 0 → (f + p - 1) / p * p = f.
Proof.
  intros Hp Hf. apply Z.mod_divide in Hf; [|lia]. destruct Hf as [k ->].
  replace (k * p + p - 1) with (p - 1 + k * p) by lia.
  rewrite Z.div_add by lia. rewrite Z.div_small by lia. lia.
Qed.

End DivisibilityOrder.

(** X1: for 0 <= length < 2^50, hop_length > 0 and depth <= 1074, a length
    is returned unchanged exactly when [hop_length] divides it and its frame
    count [length / hop_length + 1] is a multiple of
    [2 ^ num_downsamples]. *)
Theorem compute_divisible_length_fixed_point (len hop : Z) (nd : N) :
  0 ≤ len < 2 ^ 50 → 0 < hop → (nd ≤ 1074)%N →
  compute_divisible_length_f64 len hop nd = Some len
  ↔ len mod hop = 0 ∧ (len / hop + 1) mod 2 ^ Z.of_N nd = 0.
Proof.
  intros Hlen Hh Hnd. rewrite compute_divisible_length_f64_Z by done.
  destruct Hlen as [Hl _].
  pose proof (pow2_pos nd) as Hp.
  destruct (divisible_length_Z_bounds len hop nd Hl Hh) as (_ & _ & _ & B).
  split.
  - intros [= E]. rewrite E in B. split; [|exact B].
    rewrite <- E. unfold divisible_length_Z. apply Z.mod_mul. lia.
  - intros [Hm Hf]. f_equal. unfold divisible_length_Z.
    rewrite (round_up_fixed _ _ Hp Hf).
    pose proof (Z.div_mod len hop ltac:(lia)). lia.
Qed.

Lemma compute_divisible_length_fixed_point_witness :
  0 ≤ 768 < 2 ^ 50 ∧ 0 < 256 ∧ (2 ≤ 1074)%N
  ∧ (compute_divisible_length_f64 768 256 2 = Some 768
     ↔ 768 mod 256 = 0 ∧ (768 / 256 + 1) mod 2 ^ Z.of_N 2 = 0).
Proof.
  split; [split; [lia|reflexivity]|]. split; [lia|]. split; [lia|].
  apply (compute_divisible_length_fixed_point 768 256 2);
    [split; [lia|reflexivity]|lia|lia].
Defined.

(** X2: for 0 <= length < 2^50, hop_length > 0 and depth <= 1074, the result
    of [compute_divisible_length], when itself below 2^50, is its own
    divisible length. *)
Theorem compute_divisible_length_idempotent (len hop : Z) (nd : N) :
  0 ≤ len < 2 ^ 50 → 0 < hop → (nd ≤ 1074)%N →
  ∃ r, compute_divisible_length_f64 len hop nd = Some r
       ∧ (r < 2 ^ 50 → compute_divisible_length_f64 r hop nd = Some r).
Proof.
  intros Hlen Hh Hnd. exists (divisible_length_Z len hop nd).
  pose proof (divisible_length_Z_nonneg len hop nd (proj1 Hlen) Hh).
  split; [by apply compute_divisible_length_f64_Z|]. intros Hr.
  rewrite compute_divisible_length_f64_Z by done.
  rewrite divisible_length_Z_idempotent by (done || lia). done.
Qed.

Lemma compute_divisible_length_idempotent_witness :
  0 ≤ 1000 < 2 ^ 50 ∧ 0 < 256 ∧ (3 ≤ 1074)%N
  ∧ ∃ r, compute_divisible_length_f64 1000 256 3 = Some r
         ∧ (r < 2 ^ 50 → compute_divisible_length_f64 r 256 3 = Some r).
Proof.
  split; [split; [lia|reflexivity]|]. split; [lia|]. split; [lia|].
  apply (compute_divisible_length_idempotent 1000 256 3);
    [split; [lia|reflexivity]|lia|lia].
Defined.

(** X3: below 2^50 and up to depth 1074, [compute_divisible_length] is
    monotone in the length. *)
Theorem compute_divisible_length_monotone (len1 len2 hop : Z) (nd : N) :
  0 ≤ len1 → len1 ≤ len2 → len2 < 2 ^ 50 → 0 < hop → (nd ≤ 1074)%N →
  ∃ r1 r2, compute_divisible_length_f64 len1 hop nd = Some r1
           ∧ compute_divisible_length_f64 len2 hop nd = Some r2
           ∧ r1 ≤ r2.
Proof.
  intros H1 H12 H2 Hh Hnd. eexists _, _.
  rewrite !compute_divisible_length_f64_Z by (done || lia).
  split; [done|]. split; [done|].
  unfold divisible_length_Z. pose proof (pow2_pos nd) as Hp.
  apply Z.mul_le_mono_nonneg_r; [lia|].
  assert (len1 / hop ≤ len2 / hop) by (apply Z.div_le_mono; lia).
  pose proof (round_up_mono (len1 / hop + 1) (len2 / hop + 1) _ Hp). lia.
Qed.

Lemma compute_divisible_length_monotone_witness :
  0 ≤ 700 ∧ 700 ≤ 1100 ∧ 1100 < 2 ^ 50 ∧ 0 < 256 ∧ (1 ≤ 1074)%N
  ∧ ∃ r1 r2, compute_divisible_length_f64 700 256 1 = Some r1
             ∧ compute_divisible_length_f64 1100 256 1 = Some r2
             ∧ r1 ≤ r2.
Proof.
  split; [lia|]. split; [lia|]. split; [reflexivity|]. split; [lia|].
  split; [lia|].
  apply (compute_divisible_length_monotone 700 1100 256 1);
    [lia|lia|reflexivity|lia|lia].
Defined.

(** X4: for 0 <= length < 2^50, hop_length > 0 and depth <= 1074 the result
    is minimal: every length that is at least the input and whose frame
    count is a multiple of [2 ^ num_downsamples] is at least the result. *)
Theorem compute_divisible_length_least (len len' hop : Z) (nd : N) :
  0 ≤ len < 2 ^ 50 → len ≤ len' → 0 < hop → (nd ≤ 1074)%N →
  (len' / hop + 1) mod 2 ^ Z.of_N nd = 0 →
  ∃ r, compute_divisible_length_f64 len hop nd = Some r ∧ r ≤ len'.
Proof.
  intros Hlen Hle Hh Hnd Hf. exists (divisible_length_Z len hop nd).
  split; [by apply compute_divisible_length_f64_Z|].
  destruct Hlen as [Hl _].
  pose proof (pow2_pos nd) as Hp. change (2 ^ Z.of_N nd) with (Py.pow2 nd) in Hf.
  apply Z.mod_divide in Hf; [|lia]. destruct Hf as [k Hk].
  assert (len / hop ≤ len' / hop) by (apply Z.div_le_mono; lia).
  pose proof (round_up_least (len / hop + 1) (Py.pow2 nd) k Hp ltac:(lia)) as R.
  pose proof (Z.div_mod len' hop ltac:(lia)) as D.
  pose proof (Z.mod_pos_bound len' hop Hh) as B.
  unfold divisible_length_Z. nia.
Qed.

Lemma compute_divisible_length_least_witness :
  0 ≤ 1000 < 2 ^ 50 ∧ 1000 ≤ 1792 ∧ 0 < 256 ∧ (3 ≤ 1074)%N
  ∧ (1792 / 256 + 1) mod 2 ^ Z.of_N 3 = 0
  ∧ ∃ r, compute_divisible_length_f64 1000 256 3 = Some r ∧ r ≤ 1792.
Proof.
  split; [split; [lia|reflexivity]|]. split; [lia|]. split; [lia|].
  split; [lia|]. split; [reflexivity|].
  apply (compute_divisible_length_least 1000 1792 256 3);
    [split; [lia|reflexivity]|lia|lia|lia|reflexivity].
Defined.

(** X5: for 0 <= length < 2^50, hop_length > 0 and depth <= 1074 the result
    exceeds [length - length mod hop_length] by at most
    [(2 ^ num_downsamples - 1) * hop_length]; at depth 0 it never exceeds
    the input. *)
Theorem compute_divisible_length_growth (len hop : Z) (nd : N) :
  0 ≤ len < 2 ^ 50 → 0 < hop → (nd ≤ 1074)%N →
  ∃ r, compute_divisible_length_f64 len hop nd = Some r
       ∧ r ≤ len - len mod hop + (2 ^ Z.of_N nd - 1) * hop
       ∧ (nd = 0%N → r ≤ len).
Proof.
  intros Hlen Hh Hnd. exists (divisible_length_Z len hop nd).
  split; [by apply compute_divisible_length_f64_Z|].
  destruct Hlen as [Hl _].
  pose proof (pow2_pos nd) as Hp.
  destruct (round_up_multiple (len / hop + 1) (Py.pow2 nd) Hp) as [[_ B] _].
  pose proof (Z.div_mod len hop ltac:(lia)) as D.
  pose proof (Z.mod_pos_bound len hop Hh) as M.
  assert (G : divisible_length_Z len hop nd
              ≤ len - len mod hop + (Py.pow2 nd - 1) * hop).
  { unfold divisible_length_Z. nia. }
  split; [exact G|]. intros ->. change (Py.pow2 0) with 1 in G. lia.
Qed.

Lemma compute_divisible_length_growth_witness :
  0 ≤ 1000 < 2 ^ 50 ∧ 0 < 256 ∧ (3 ≤ 1074)%N
  ∧ ∃ r, compute_divisible_length_f64 1000 256 3 = Some r
         ∧ r ≤ 1000 - 1000 mod 256 + (2 ^ Z.of_N 3 - 1) * 256
         ∧ (3%N = 0%N → r ≤ 1000).
Proof.
  split; [split; [lia|reflexivity]|]. split; [lia|]. split; [lia|].
  apply (compute_divisible_length_growth 1000 256 3);
    [split; [lia|reflexivity]|lia|lia].
Defined.

(** ** Length aligner: failure, idempotence, pad then crop *)

Section AlignerFurther.
Context {A : Type} (zero : A).
Implicit Types (x : ndarray A) (row : list A).


Lemma align_row_back (pad_end : bool) (n n' : nat) row :
  length row = n → (n ≤ n')%nat →
  align_row zero pad_end n' n (align_row zero pad_end n n' row) = row.
Proof.
  intros Hn Hle. unfold align_row.
  rewrite (decide_True (P := (n ≤ n')%nat)) by done.
  destruct pad_end; case_decide.
  - replace n' with n by lia. rewrite take_take, Nat.min_id.
    apply take_ge. lia.
  - rewrite take_app_length' by done. done.
  - replace n' with n by lia. by rewrite Nat.sub_diag.
  - rewrite drop_app_length' by (rewrite length_replicate; lia). done.
Qed.



(** X8: padding the last axis by [d >= 0] zeros at one edge and then
    padding by [-d] at the same edge gives the tensor back. *)
Theorem F_pad_then_crop x lead (n : nat) (d : Z) (pad_end : bool) :
  shape x = lead ++ [n] → wf x → 0 ≤ d →
  ∃ y, (if pad_end then F_pad zero x (0, d) else F_pad zero x (d, 0)) = Some y
       ∧ (if pad_end then F_pad zero y (0, - d) else F_pad zero y (- d, 0))
         = Some x.
Proof.
  intros E W Hd.
  set (n' := Z.to_nat (Z.of_nat n + d)).
  pose proof (F_pad_one_sided zero x lead n (Z.of_nat n + d) pad_end E W
                ltac:(lia)) as P1.
  replace (Z.of_nat n + d - Z.of_nat n) with d in P1 by lia. fold n' in P1.
  exists (aligned zero pad_end lead n n' x). split; [exact P1|].
  destruct (aligned_facts zero pad_end lead n n' x E W) as [Wy Ry].
  pose proof (F_pad_one_sided zero (aligned zero pad_end lead n n' x) lead n'
                (Z.of_nat n) pad_end eq_refl Wy ltac:(lia)) as P2.
  replace (Z.of_nat n - Z.of_nat n') with (- d) in P2 by lia.
  rewrite P2, Nat2Z.id. f_equal.
  destruct (rows_uniform x lead n E W) as [_ U].
  unfold aligned at 1. rewrite Ry, <- list_fmap_compose.
  assert (M : align_row zero pad_end n' n ∘ align_row zero pad_end n n'
              <$> rows x = rows x).
  { rewrite <- (list_fmap_id (rows x)) at 2. apply Forall_fmap_ext.
    eapply Forall_impl; [exact U|]. intros row Hrow. cbn.
    apply align_row_back; [done|lia]. }
  rewrite M, (concat_rows x lead n E W), <- E. by destruct x.
Qed.

End AlignerFurther.



Lemma F_pad_then_crop_witness :
  shape (NdArray [2; 2]%nat [1; 2; 3; 4]) = [2%nat] ++ [2%nat]
  ∧ wf (NdArray [2; 2]%nat [1; 2; 3; 4]) ∧ 0 ≤ 3
  ∧ ∃ y, (if false then F_pad 0 (NdArray [2; 2]%nat [1; 2; 3; 4]) (0, 3)
          else F_pad 0 (NdArray [2; 2]%nat [1; 2; 3; 4]) (3, 0)) = Some y
         ∧ (if false then F_pad 0 y (0, - 3) else F_pad 0 y (- 3, 0))
           = Some (NdArray [2; 2]%nat [1; 2; 3; 4]).
Proof.
  split; [reflexivity|]. split; [reflexivity|]. split; [lia|].
  apply (F_pad_then_crop 0 (NdArray [2; 2]%nat [1; 2; 3; 4]) [2%nat] 2%nat 3
           false); [reflexivity|reflexivity|lia].
Defined.

(** ** Integer input: the range of the rescaled samples *)

Lemma rescale_sample_range (dt : int_dtype) (z : Z) :
  - iinfo_max dt ≤ z ≤ iinfo_max dt →
  (- (1) <= inject_Z z / inject_Z (iinfo_max dt))%Q
  ∧ (inject_Z z / inject_Z (iinfo_max dt) <= 1)%Q.
Proof.
  intros [Hlo Hhi]. pose proof (iinfo_max_pos dt) as Hm.
  assert (Hmq : (0 < inject_Z (iinfo_max dt))%Q).
  { change 0%Q with (inject_Z 0). by rewrite <- Zlt_Qlt. }
  split.
  - apply Qle_shift_div_l; [exact Hmq|].
    assert (E : (- (1) * inject_Z (iinfo_max dt)
                 == inject_Z (- iinfo_max dt))%Q).
    { rewrite inject_Z_opp. ring. }
    rewrite E. by rewrite <- Zle_Qle.
  - apply Qle_shift_div_r; [exact Hmq|]. rewrite Qmult_1_l.
    by rewrite <- Zle_Qle.
Qed.

(** X9: an integral input whose samples are all at least the negated
    maximum of its dtype (every unsigned input, and every signed input that
    does not hold the most negative value) is rescaled to finite samples in
    [-1, 1], in an array of the same shape. *)
Theorem rescale_integral_range (dt : int_dtype) (a : ndarray Z) :
  np_valid (IntArray dt a) →
  Forall (λ z, - iinfo_max dt ≤ z) (data a) →
  shape (rescale_integral (IntArray dt a)) = shape a
  ∧ Forall (λ v, ∃ q, v = Fin q ∧ (- (1) <= q)%Q ∧ (q <= 1)%Q)
      (data (rescale_integral (IntArray dt a))).
Proof.
  intros V Hlo. split; [done|].
  cbn [np_valid rescale_integral data] in V |- *.
  apply Forall_fmap.
  assert (B := conj V Hlo). apply Forall_and in B.
  eapply Forall_impl; [exact B|]. cbn beta.
  intros z [[_ Hhi] Hz]. eexists. split; [reflexivity|].
  apply rescale_sample_range. lia.
Qed.

Lemma rescale_integral_range_witness :
  np_valid (IntArray Int16 (NdArray [3%nat] [-32767; 0; 32767]))
  ∧ Forall (λ z, - iinfo_max Int16 ≤ z) [-32767; 0; 32767]
  ∧ shape (rescale_integral
             (IntArray Int16 (NdArray [3%nat] [-32767; 0; 32767])))
    = [3%nat]
  ∧ Forall (λ v, ∃ q, v = Fin q ∧ (- (1) <= q)%Q ∧ (q <= 1)%Q)
      (data (rescale_integral
               (IntArray Int16 (NdArray [3%nat] [-32767; 0; 32767])))).
Proof.
  assert (V : np_valid (IntArray Int16 (NdArray [3%nat] [-32767; 0; 32767])))
    by (repeat constructor; cbn; lia).
  assert (L : Forall (λ z, - iinfo_max Int16 ≤ z) [-32767; 0; 32767])
    by (repeat constructor; cbn; lia).
  split; [exact V|]. split; [exact L|].
  exact (rescale_integral_range Int16 (NdArray [3%nat] [-32767; 0; 32767]) V L).
Defined.

(** ** Elementwise view of a one-sided pad *)

Section AlignedLookup.
Context {A : Type} (zero : A).
Implicit Types (x : ndarray A) (d row : list A) (rs : list (list A)).

Lemma lookup_chunks (n k r : nat) d :
  (r < k)%nat → chunks n k d !! r = Some (take n (drop (r * n) d)).
Proof.
  revert d r. induction k as [|k IH]; intros d r Hr.
  { lia. }
  destruct r as [|r]; cbn [chunks lookup list_lookup].
  - done.
  - rewrite IH by lia. rewrite drop_drop. do 3 f_equal; lia.
Qed.

Lemma lookup_concat_uniform (n r t : nat) rs :
  Forall (λ row, length row = n) rs → (t < n)%nat →
  concat rs !! (r * n + t)%nat = rs !! r ≫= (λ row, row !! t).
Proof.
  intros U Ht. revert r.
  induction U as [|row rs Hrow _ IH]; intros r.
  { done. }
  cbn [concat]. destruct r as [|r]; cbn [lookup list_lookup].
  - rewrite lookup_app_l by lia. done.
  - rewrite lookup_app_r by lia.
    replace (S r * n + t - length row)%nat with (r * n + t)%nat by lia.
    apply IH.
Qed.

Lemma lookup_align_row (pad_end : bool) (n target t : nat) row :
  length row = n → (t < target)%nat →
  align_row zero pad_end n target row !! t
  = if pad_end
    then (if decide (t < n)%nat then row !! t else Some zero)
    else (if decide (target ≤ t + n)%nat then row !! (t + n - target)%nat
          else Some zero).
Proof.
  intros Hn Ht. unfold align_row.
  destruct pad_end; repeat case_decide; try lia.
  - by apply lookup_take_lt.
  - by rewrite lookup_app_l by lia.
  - rewrite lookup_app_r by lia. apply lookup_replicate_2. lia.
  - rewrite lookup_drop. f_equal. lia.
  - rewrite lookup_app_r by (rewrite length_replicate; lia).
    rewrite length_replicate. f_equal. lia.
  - rewrite lookup_app_l by (rewrite length_replicate; lia).
    apply lookup_replicate_2. lia.
Qed.

(** The sample at row [r] and position [t] of a one-sided pad. *)
Lemma aligned_lookup (pad_end : bool) lead (n target r t : nat) x :
  shape x = lead ++ [n] → wf x → (r < numel lead)%nat → (t < target)%nat →
  data (aligned zero pad_end lead n target x) !! (r * target + t)%nat
  = if pad_end
    then (if decide (t < n)%nat then data x !! (r * n + t)%nat
          else Some zero)
    else (if decide (target ≤ t + n)%nat
          then data x !! (r * n + (t + n - target))%nat
          else Some zero).
Proof.
  intros E W Hr Ht. destruct (rows_uniform x lead n E W) as [Hl U].
  unfold aligned. cbn [data].
  rewrite (lookup_concat_uniform target).
  2:{ apply Forall_fmap. eapply Forall_impl; [exact U|].
      intros row Hrow. by apply length_align_row. }
  2:{ done. }
  rewrite list_lookup_fmap, (rows_snoc x lead n E), lookup_chunks by done.
  cbn [fmap option_fmap option_map mbind option_bind].
  assert (Hrow : length (take n (drop (r * n) (data x))) = n).
  { rewrite length_take, length_drop. red in W. rewrite W, E, numel_snoc.
    pose proof (Nat.mul_le_mono_r (S r) (numel lead) n ltac:(lia)) as M.
    rewrite Nat.mul_succ_l in M. lia. }
  rewrite (lookup_align_row pad_end n target t _ Hrow Ht).
  destruct pad_end; case_decide; try done.
  - rewrite lookup_take_lt by lia. by rewrite lookup_drop.
  - rewrite lookup_take_lt by lia. by rewrite lookup_drop.
Qed.

Lemma F_pad_rank x (pad : Z * Z) (y : ndarray A) :
  F_pad zero x pad = Some y → length (shape y) = length (shape x).
Proof.
  destruct pad as [l r]. unfold F_pad.
  destruct (split_last (shape x)) as [[lead n]|] eqn:E; [|done].
  apply split_last_Some in E. cbn [mbind option_bind].
  repeat case_guard; cbn [mbind option_bind]; try done.
  intros [= <-]. cbn [shape]. by rewrite E, !length_app.
Qed.

End AlignedLookup.

(** ** Egress: any target length, and what it rejects *)

(** X10: for a well-formed (B, C, L) tensor and any [target_length = T >= 0],
    egress returns a well-formed (T*B, C) array.  With [pad_end] its entry
    at row [t*B + b], column [c] is the input's entry [b, c, t] for [t < L]
    and zero from [L] on; without [pad_end] the input is aligned to the end:
    the entry is the input's [b, c, t + L - T] when [T <= t + L] and zero
    before. *)
Theorem gradio_audio_postprocessing_elements
    (audio : ndarray float) (B C L T : nat) (pad_end : bool) :
  shape audio = [B; C; L] → wf audio →
  ∃ out, gradio_audio_postprocessing audio (Z.of_nat T) pad_end = Some out
         ∧ shape out = [(T * B)%nat; C] ∧ wf out
         ∧ ∀ b c t, (b < B)%nat → (c < C)%nat → (t < T)%nat →
             data out !! ((t * B + b) * C + c)%nat
             = if pad_end
               then (if decide (t < L)%nat
                     then data audio !! ((b * C + c) * L + t)%nat
                     else Some fzero)
               else (if decide (T ≤ t + L)%nat
                     then data audio !! ((b * C + c) * L + (t + L - T))%nat
                     else Some fzero).
Proof.
  intros E W. unfold gradio_audio_postprocessing.
  change [B; C; L] with ([B; C] ++ [L]) in E.
  rewrite E, split_last_snoc. cbn [mbind option_bind].
  rewrite (F_pad_one_sided fzero audio [B; C] L (Z.of_nat T) pad_end E W)
    by lia.
  cbn [mbind option_bind]. rewrite Nat2Z.id.
  destruct (aligned_facts fzero pad_end [B; C] L T audio E W) as [Wm _].
  destruct (to_channels_last_spec (aligned fzero pad_end [B; C] L T audio)
              B C T eq_refl Wm) as (out & H & Hs & Hw & Hl).
  exists out. split; [exact H|]. split; [exact Hs|]. split; [exact Hw|].
  intros b c t Hb Hc Ht. rewrite (Hl b c t Hb Hc Ht).
  apply aligned_lookup; [done..| |done].
  unfold numel. cbn. nia.
Qed.

Lemma gradio_audio_postprocessing_elements_witness :
  shape (NdArray [1; 1; 3]%nat [Fin 1; Fin 2; Fin 3]) = [1; 1; 3]%nat
  ∧ wf (NdArray [1; 1; 3]%nat [Fin 1; Fin 2; Fin 3])
  ∧ ∃ out,
      gradio_audio_postprocessing (NdArray [1; 1; 3]%nat [Fin 1; Fin 2; Fin 3])
        (Z.of_nat 5) false = Some out
      ∧ shape out = [(5 * 1)%nat; 1%nat] ∧ wf out
      ∧ ∀ b c t, (b < 1)%nat → (c < 1)%nat → (t < 5)%nat →
          data out !! ((t * 1 + b) * 1 + c)%nat
          = if false
            then (if decide (t < 3)%nat
                  then data (NdArray [1; 1; 3]%nat [Fin 1; Fin 2; Fin 3])
                         !! ((b * 1 + c) * 3 + t)%nat
                  else Some fzero)
            else (if decide (5 ≤ t + 3)%nat
                  then data (NdArray [1; 1; 3]%nat [Fin 1; Fin 2; Fin 3])
                         !! ((b * 1 + c) * 3 + (t + 3 - 5))%nat
                  else Some fzero).
Proof.
  split; [reflexivity|]. split; [reflexivity|].
  apply (gradio_audio_postprocessing_elements
           (NdArray [1; 1; 3]%nat [Fin 1; Fin 2; Fin 3]) 1 1 3 5 false);
    reflexivity.
Defined.

(** X11: egress raises on a negative [target_length], and on every tensor
    that is not 3-d. *)
Theorem gradio_audio_postprocessing_rejects
    (audio : ndarray float) (target_length : Z) (pad_end : bool) :
  target_length < 0 ∨ length (shape audio) ≠ 3%nat →
  gradio_audio_postprocessing audio target_length pad_end = None.
Proof.
  intros H. unfold gradio_audio_postprocessing.
  destruct (split_last (shape audio)) as [[lead n]|] eqn:E; [|done].
  apply split_last_Some in E. cbn [mbind option_bind].
  destruct H as [Hneg|Hrank].
  - by rewrite (F_pad_negative fzero audio lead n target_length pad_end E Hneg).
  - destruct (if pad_end
              then F_pad fzero audio (0, target_length - Z.of_nat n)
              else F_pad fzero audio (target_length - Z.of_nat n, 0))
      as [y|] eqn:P; [|done].
    cbn [mbind option_bind].
    assert (R : length (shape y) = length (shape audio)).
    { destruct pad_end; by eapply F_pad_rank. }
    unfold to_channels_last.
    destruct (shape y) as [|?[|?[|?[|??]]]]; try done;
      cbn in R; congruence.
Qed.

Lemma gradio_audio_postprocessing_rejects_witness :
  (-1 < 0 ∨ length (shape (NdArray [1; 1; 2]%nat [Fin 1; Fin 2])) ≠ 3%nat)
  ∧ gradio_audio_postprocessing (NdArray [1; 1; 2]%nat [Fin 1; Fin 2]) (-1)
      true = None.
Proof.
  assert (H : -1 < 0 ∨ length (shape (NdArray [1; 1; 2]%nat [Fin 1; Fin 2]))
                       ≠ 3%nat) by (left; lia).
  split; [exact H|].
  exact (gradio_audio_postprocessing_rejects
           (NdArray [1; 1; 2]%nat [Fin 1; Fin 2]) (-1) true H).
Defined.

(** ** Ingest: layout, output shape, and what it rejects *)

Section ChannelFirst.
Context {A : Type}.

Lemma channel_first_index (l c ci li : nat) :
  (ci < c)%nat → (li < l)%nat →
  (ci' ← seq 0 c; li' ← seq 0 l; [(li' * c + ci')%nat]) !! (ci * l + li)%nat
  = Some (li * c + ci)%nat.
Proof.
  intros Hc Hl.
  rewrite (lookup_bind_seq _ l) by (try done; intros; by rewrite (length_bind_seq _ 1); [lia|]).
  by rewrite lookup_bind_seq_singleton.
Qed.

Lemma channel_first_indices_length (l c : nat) :
  length (ci' ← seq 0 c; li' ← seq 0 l; [(li' * c + ci')%nat]) = (c * l)%nat.
Proof.
  rewrite (length_bind_seq _ l); [done|]. intros ci _.
  rewrite (length_bind_seq _ 1); [lia|done].
Qed.

Lemma channel_first_indices_bound (l c : nat) :
  Forall (λ i, i < l * c)%nat
    (ci' ← seq 0 c; li' ← seq 0 l; [(li' * c + ci')%nat]).
Proof.
  apply Forall_forall. intros i Hi.
  apply list_elem_of_bind in Hi as (ci & Hi & Hci).
  apply list_elem_of_bind in Hi as (li & Hi & Hli).
  apply list_elem_of_singleton in Hi as ->.
  apply elem_of_seq in Hli, Hci.
  pose proof (Nat.mul_le_mono_r (S li) l c ltac:(lia)) as M.
  rewrite Nat.mul_succ_l in M. lia.
Qed.

(** ["l c -> () c l"] on a 2-d array: one batch item, channels first. *)
Lemma to_batched_channel_first_2d (audio : ndarray A) (l c : nat) :
  shape audio = [l; c] → wf audio →
  ∃ out, to_batched_channel_first audio = Some out
         ∧ shape out = [1%nat; c; l] ∧ wf out
         ∧ ∀ ci li, (ci < c)%nat → (li < l)%nat →
             data out !! (ci * l + li)%nat = data audio !! (li * c + ci)%nat.
Proof.
  intros E W. red in W. rewrite E in W. unfold numel in W. cbn in W.
  unfold to_batched_channel_first. rewrite E.
  destruct (gather_is_Some (data audio)
              (ci' ← seq 0 c; li' ← seq 0 l; [(li' * c + ci')%nat]))
    as [out Hout].
  { eapply Forall_impl; [apply channel_first_indices_bound|].
    intros i Hi. cbn beta in *. lia. }
  rewrite Hout. eexists. split; [reflexivity|]. cbn [shape data].
  split; [done|]. split.
  - red. cbn [shape data]. rewrite (gather_length _ _ _ Hout).
    rewrite channel_first_indices_length. unfold numel. cbn. lia.
  - intros ci li Hc Hl.
    apply (gather_lookup _ _ _ _ _ Hout). by apply channel_first_index.
Qed.


End ChannelFirst.


Section IngestShape.
Variable resample_kernel : ndarray float → Z → Z → option (ndarray float).

(** The contract of the resampling filter: on a well-formed (1, C, m)
    tensor it returns a well-formed (1, C, m') tensor. *)
Hypothesis resample_kernel_shape :
  ∀ w src tgt (c m : nat),
    shape w = [1%nat; c; m] → wf w →
    ∃ w' (m' : nat), resample_kernel w src tgt = Some w'
                     ∧ shape w' = [1%nat; c; m'] ∧ wf w'.


(** X13: ingest raises on an input that is not 1-d or 2-d, and on a rate
    that is not positive. *)
Theorem gradio_audio_preprocessing_rejects
    (audio : np_array) (src tgt target_length hop : Z) (nd : N)
    (pad_end : bool) :
  length (shape (rescale_integral audio)) = 0%nat
  ∨ (3 ≤ length (shape (rescale_integral audio)))%nat
  ∨ src ≤ 0 ∨ tgt ≤ 0 →
  gradio_audio_preprocessing resample_kernel audio src tgt target_length
    hop nd pad_end = None.
Proof.
  intros H. unfold gradio_audio_preprocessing.
  destruct (to_batched_channel_first (rescale_integral audio)) as [a1|] eqn:E1;
    [|done].
  cbn [mbind option_bind].
  destruct H as [H|[H|H]].
  - unfold to_batched_channel_first in E1.
    by destruct (shape (rescale_integral audio)).
  - unfold to_batched_channel_first in E1.
    destruct (shape (rescale_integral audio)) as [|?[|?[|??]]];
      try done; cbn in H; lia.
  - unfold AF_resample. by rewrite decide_True.
Qed.

End IngestShape.


Lemma gradio_audio_preprocessing_rejects_witness :
  (length (shape (rescale_integral (FloatArray (NdArray [2%nat] [Fin 1; Fin 2]))))
   = 0%nat
   ∨ (3 ≤ length (shape (rescale_integral
                           (FloatArray (NdArray [2%nat] [Fin 1; Fin 2])))))%nat
   ∨ 0 ≤ 0 ∨ 8 ≤ 0)
  ∧ gradio_audio_preprocessing (λ v _ _, Some v)
      (FloatArray (NdArray [2%nat] [Fin 1; Fin 2])) 0 8 2 1 0 true = None.
Proof.
  assert (H : length (shape (rescale_integral
                               (FloatArray (NdArray [2%nat] [Fin 1; Fin 2]))))
              = 0%nat
              ∨ (3 ≤ length (shape (rescale_integral
                              (FloatArray (NdArray [2%nat] [Fin 1; Fin 2])))))%nat
              ∨ 0 ≤ 0 ∨ 8 ≤ 0) by (right; right; left; lia).
  split; [exact H|].
  exact (gradio_audio_preprocessing_rejects (λ v _ _, Some v)
           (FloatArray (NdArray [2%nat] [Fin 1; Fin 2])) 0 8 2 1 0%N true H).
Defined.

(** X14: the two rearrangements are inverse on 2-d input: a well-formed
    (time, channel) array turned channel-first with a batch axis and handed
    straight to egress with its own length comes back unchanged. *)
Theorem rearrange_round_trip (audio : ndarray float) (l c : nat)
    (pad_end : bool) :
  shape audio = [l; c] → wf audio →
  ∃ mid, to_batched_channel_first audio = Some mid
         ∧ gradio_audio_postprocessing mid (Z.of_nat l) pad_end = Some audio.
Proof.
  intros E W.
  destruct (to_batched_channel_first_2d audio l c E W)
    as (mid & H & Es & Wm & Hl).
  exists mid. split; [exact H|].
  unfold gradio_audio_postprocessing.
  change [1%nat; c; l] with ([1%nat; c] ++ [l]) in Es.
  rewrite Es, split_last_snoc. cbn [mbind option_bind].
  rewrite (F_pad_one_sided fzero mid [1%nat; c] l (Z.of_nat l) pad_end Es Wm)
    by lia.
  cbn [mbind option_bind]. rewrite Nat2Z.id.
  rewrite (aligned_same fzero pad_end [1%nat; c] l mid Es Wm).
  destruct (to_channels_last_spec mid 1 c l Es Wm) as (out & Ho & Eo & Wo & Lo).
  rewrite Ho. f_equal. destruct out as [sh d], audio as [sh' d'].
  cbn [shape data] in *. subst sh sh'. rewrite Nat.mul_1_r. f_equal.
  red in W, Wo. unfold numel in W, Wo. cbn in W, Wo.
  apply list_eq. intros i.
  destruct (decide (i < l * c)%nat) as [Hi|Hi].
  - pose proof (Nat.div_mod_eq i c) as D.
    assert (Hc : (0 < c)%nat) by nia.
    pose proof (Nat.mod_upper_bound i c ltac:(lia)) as Hm.
    assert (Hq : (i / c < l)%nat) by (apply Nat.Div0.div_lt_upper_bound; lia).
    specialize (Lo 0%nat (i mod c)%nat (i / c)%nat ltac:(lia) Hm Hq).
    replace ((0 * c + i mod c) * l + i / c)%nat
      with (i mod c * l + i / c)%nat in Lo by lia.
    rewrite (Hl _ _ Hm Hq) in Lo.
    replace ((i / c * 1 + 0) * c + i mod c)%nat with i in Lo by lia.
    replace (i / c * c + i mod c)%nat with i in Lo by lia.
    exact Lo.
  - rewrite !lookup_ge_None_2 by lia. done.
Qed.

Lemma rearrange_round_trip_witness :
  shape (NdArray [3; 2]%nat [Fin 1; Fin 2; Fin 3; Fin 4; Fin 5; Fin 6])
  = [3; 2]%nat
  ∧ wf (NdArray [3; 2]%nat [Fin 1; Fin 2; Fin 3; Fin 4; Fin 5; Fin 6])
  ∧ ∃ mid,
      to_batched_channel_first
        (NdArray [3; 2]%nat [Fin 1; Fin 2; Fin 3; Fin 4; Fin 5; Fin 6])
      = Some mid
      ∧ gradio_audio_postprocessing mid (Z.of_nat 3) true
        = Some (NdArray [3; 2]%nat [Fin 1; Fin 2; Fin 3; Fin 4; Fin 5; Fin 6]).
Proof.
  split; [reflexivity|]. split; [reflexivity|].
  apply (rearrange_round_trip
           (NdArray [3; 2]%nat [Fin 1; Fin 2; Fin 3; Fin 4; Fin 5; Fin 6])
           3 2 true); reflexivity.
Defined.

(** ** Mask builder: interval order, 0-d input, parsed bounds *)

Lemma split_on_nonempty (sep : ascii) (s : string) : split_on sep s ≠ [].
Proof.
  destruct s as [|c s]; cbn [split_on]; [done|].
  case_decide; [done|]. by destruct (split_on sep s).
Qed.

Lemma masked_Permutation (sr : Q) (ivs1 ivs2 : list (Z * Z)) (t : nat) :
  ivs1 ≡ₚ ivs2 → masked sr ivs1 t = masked sr ivs2 t.
Proof.
  unfold masked. induction 1 as [|iv l1 l2 _ IH|iv1 iv2 l|l1 l2 l3 _ IH1 _ IH2];
    cbn [existsb].
  - done.
  - by rewrite IH.
  - by rewrite !orb_assoc, (orb_comm _ (let '(start, stop) := iv1 in _)).
  - by rewrite IH1.
Qed.

Section MaskFurther.
Context {A : Type} (one zero : A).

(** Two masks over the same axes that are zero on the same time indices
    are equal. *)
Lemma mask_of_unique (n : nat) (rest : list nat) (f g : nat → bool)
    (m1 m2 : ndarray A) :
  mask_of one zero n rest f m1 → mask_of one zero n rest g m2 →
  (∀ t, (t < n)%nat → f t = g t) → m1 = m2.
Proof.
  intros (S1 & L1 & D1) (S2 & L2 & D2) Hfg.
  destruct m1 as [s1 d1], m2 as [s2 d2]. cbn [shape data] in *. subst s1 s2.
  f_equal. apply list_eq. intros i.
  destruct (decide (i < n * numel rest)%nat) as [Hi|Hi].
  - pose proof (Nat.div_mod_eq i (numel rest)) as D.
    assert (Hc : (0 < numel rest)%nat) by nia.
    pose proof (Nat.mod_upper_bound i (numel rest) ltac:(lia)) as Hm.
    assert (Hq : (i / numel rest < n)%nat)
      by (apply Nat.Div0.div_lt_upper_bound; lia).
    specialize (D1 _ _ Hq Hm). specialize (D2 _ _ Hq Hm).
    replace (i / numel rest * numel rest + i mod numel rest)%nat
      with i in D1, D2 by lia.
    by rewrite D1, D2, (Hfg _ Hq).
  - rewrite !lookup_ge_None_2 by lia. done.
Qed.

(** X15: for an integer sample_rate > 0 the mask does not depend on the
    order in which the spec lists its intervals: two specs that parse to the
    same intervals in a different order give the same mask. *)
Theorem generate_gradio_audio_mask_order
    (audio : ndarray A) (n : nat) (rest : list nat) (sample_rate : Z)
    (spec1 spec2 : string) (ivs1 ivs2 : list (Z * Z)) :
  shape audio = n :: rest → 0 < sample_rate →
  parse_mask_spec spec1 = Some ivs1 → parse_mask_spec spec2 = Some ivs2 →
  ivs1 ≡ₚ ivs2 →
  ∃ mask,
    generate_gradio_audio_mask one zero audio (inject_Z sample_rate) spec1
    = Some mask
    ∧ generate_gradio_audio_mask one zero audio (inject_Z sample_rate) spec2
      = Some mask.
Proof.
  intros E Hr P1 P2 Hp. unfold generate_gradio_audio_mask.
  rewrite P1, P2. cbn [mbind option_bind].
  assert (Hq : (0 < inject_Z sample_rate)%Q)
    by (change 0%Q with (inject_Z 0); by rewrite <- Zlt_Qlt).
  pose proof (ones_like_mask_of one zero audio n rest E) as H0.
  destruct (zero_intervals_spec one zero (inject_Z sample_rate) ivs1 Hq
              (parse_mask_spec_nonneg spec1 ivs1 P1) _ n rest _ H0)
    as (m1 & -> & M1).
  destruct (zero_intervals_spec one zero (inject_Z sample_rate) ivs2 Hq
              (parse_mask_spec_nonneg spec2 ivs2 P2) _ n rest _ H0)
    as (m2 & -> & M2).
  exists m1. split; [done|]. f_equal. symmetry.
  apply (mask_of_unique n rest _ _ m1 m2 M1 M2).
  intros t _.
  by rewrite (masked_Permutation (inject_Z sample_rate) ivs1 ivs2 t Hp).
Qed.

(** X16: on a 0-d array the mask builder raises for every spec: a spec that
    parses lists at least one interval, and the first slice assignment has
    no axis to index. *)
Theorem generate_gradio_audio_mask_0d
    (audio : ndarray A) (sample_rate : Q) (spec : string) :
  shape audio = [] →
  generate_gradio_audio_mask one zero audio sample_rate spec = None.
Proof.
  intros E. unfold generate_gradio_audio_mask.
  destruct (parse_mask_spec spec) as [ivs|] eqn:P; [|done].
  cbn [mbind option_bind]. unfold parse_mask_spec in P.
  pose proof (split_on_nonempty "," spec) as Hne.
  apply length_mapM in P.
  destruct ivs as [|[s e] ivs].
  - destruct (split_on "," spec); [done|]. cbn in P. lia.
  - cbn [zero_intervals]. unfold assign_zero_slice, ones_like.
    cbn [shape]. by rewrite E.
Qed.

End MaskFurther.

(** X17: a spec that parses lists one interval for each comma-separated
    piece, at least one, and no parsed bound is negative (a minus sign can
    only be read as the separator). *)
Theorem parse_mask_spec_result (spec : string) (ivs : list (Z * Z)) :
  parse_mask_spec spec = Some ivs →
  ivs ≠ []
  ∧ length ivs = length (split_on "," spec)
  ∧ Forall (λ iv, 0 ≤ iv.1 ∧ 0 ≤ iv.2) ivs.
Proof.
  intros P. pose proof (parse_mask_spec_nonneg spec ivs P) as Hn.
  unfold parse_mask_spec in P. apply length_mapM in P.
  pose proof (split_on_nonempty "," spec) as Hne.
  split; [|split; [done|exact Hn]].
  intros ->. destruct (split_on "," spec); [done|]. cbn in P. lia.
Qed.

Lemma generate_gradio_audio_mask_order_witness :
  shape (NdArray [5%nat] (replicate 5 7)) = 5%nat :: []
  ∧ 0 < 1
  ∧ parse_mask_spec "0-1,3-4" = Some [(0, 1); (3, 4)]
  ∧ parse_mask_spec "3-4,0-1" = Some [(3, 4); (0, 1)]
  ∧ [(0, 1); (3, 4)] ≡ₚ [(3, 4); (0, 1)]
  ∧ ∃ mask,
      generate_gradio_audio_mask 1 0 (NdArray [5%nat] (replicate 5 7))
        (inject_Z 1) "0-1,3-4" = Some mask
      ∧ generate_gradio_audio_mask 1 0 (NdArray [5%nat] (replicate 5 7))
          (inject_Z 1) "3-4,0-1" = Some mask.
Proof.
  split; [reflexivity|]. split; [lia|].
  split; [vm_compute; reflexivity|]. split; [vm_compute; reflexivity|].
  split; [apply perm_swap|].
  apply (generate_gradio_audio_mask_order 1 0 (NdArray [5%nat] (replicate 5 7))
           5%nat [] 1 "0-1,3-4" "3-4,0-1" [(0, 1); (3, 4)] [(3, 4); (0, 1)]);
    [reflexivity|lia|vm_compute; reflexivity|vm_compute; reflexivity
    |apply perm_swap].
Defined.

Lemma generate_gradio_audio_mask_0d_witness :
  shape (NdArray [] [7]) = []
  ∧ generate_gradio_audio_mask 1 0 (NdArray [] [7]) 1 "0-1" = None.
Proof.
  split; [reflexivity|].
  apply (generate_gradio_audio_mask_0d 1 0 (NdArray [] [7]) 1%Q "0-1").
  reflexivity.
Defined.

Lemma parse_mask_spec_result_witness :
  parse_mask_spec "0-1,3-4" = Some [(0, 1); (3, 4)]
  ∧ [(0, 1); (3, 4)] ≠ []
  ∧ length [(0, 1); (3, 4)] = length (split_on "," "0-1,3-4")
  ∧ Forall (λ iv : Z * Z, 0 ≤ iv.1 ∧ 0 ≤ iv.2) [(0, 1); (3, 4)].
Proof.
  split; [vm_compute; reflexivity|].
  apply (parse_mask_spec_result "0-1,3-4" [(0, 1); (3, 4)]).
  vm_compute; reflexivity.
Defined.

(** ** Amplitude scaler: what raises, NaN input, any target peak *)

Section ScalerFurther.
Implicit Types (h : heap) (t : ndarray float) (qs : list Q).

Lemma foldl_fmax_NaN_acc (l : list float) : foldl fmax NaN l = NaN.
Proof. induction l as [|v l IH]; [done|]. exact IH. Qed.

Lemma fmax_NaN_r (a : float) : fmax a NaN = NaN.
Proof. by destruct a. Qed.

Lemma foldl_fmax_NaN (a : float) (l : list float) :
  NaN ∈ l → foldl fmax a l = NaN.
Proof.
  revert a. induction l as [|v l IH]; intros a Hin.
  { by apply not_elem_of_nil in Hin. }
  apply elem_of_cons in Hin as [<-|Hin]; cbn [foldl].
  - rewrite fmax_NaN_r. apply foldl_fmax_NaN_acc.
  - by apply IH.
Qed.

Lemma max_all_NaN (l : list float) : NaN ∈ l → max_all l = Some NaN.
Proof.
  destruct l as [|v l]; intros Hin.
  { by apply not_elem_of_nil in Hin. }
  cbn [max_all]. f_equal.
  apply elem_of_cons in Hin as [<-|Hin];
    [apply foldl_fmax_NaN_acc|by apply foldl_fmax_NaN].
Qed.

Lemma fmap_constant {X Y} (f : X → Y) (y : Y) (l : list X) :
  (∀ v, f v = y) → f <$> l = replicate (length l) y.
Proof.
  intros Hf. induction l as [|v l IH]; [done|].
  cbn [fmap list_fmap length replicate]. cbn [fmap] in IH. by rewrite Hf, IH.
Qed.

End ScalerFurther.

(** X18: [max_abs_scaling] raises on an empty tensor ([max()] has nothing
    to reduce), and on a reference to no tensor. *)
Theorem max_abs_scaling_raises (h : heap) (x : ref) (c : float) :
  h !! x = None ∨ (∃ sh, h !! x = Some (NdArray sh [])) →
  max_abs_scaling x c h = None.
Proof.
  intros [Hx|[sh Hx]].
  - unfold max_abs_scaling. apply bind_raise.
    unfold tensor_abs. apply bind_raise. unfold deref. by rewrite Hx.
  - by apply (max_abs_scaling_empty h x sh).
Qed.

Lemma max_abs_scaling_raises_witness :
  ([NdArray [0%nat] ([] : list float)] !! 0%nat = None
   ∨ ∃ sh, [NdArray [0%nat] ([] : list float)] !! 0%nat
           = Some (NdArray sh []))
  ∧ max_abs_scaling 0%nat default_max_abs_value [NdArray [0%nat] []] = None.
Proof.
  assert (H : [NdArray [0%nat] ([] : list float)] !! 0%nat = None
              ∨ ∃ sh, [NdArray [0%nat] ([] : list float)] !! 0%nat
                      = Some (NdArray sh []))
    by (right; exists [0%nat]; reflexivity).
  split; [exact H|].
  exact (max_abs_scaling_raises [NdArray [0%nat] []] 0%nat
           default_max_abs_value H).
Defined.

(** X19: a single NaN sample in the input turns the whole output into NaN:
    the peak is NaN, and so is every quotient by it. *)
Theorem max_abs_scaling_nan
    (h : heap) (x : ref) (t : ndarray float) (c : float) :
  h !! x = Some t → NaN ∈ data t →
  ∃ r h', max_abs_scaling x c h = Some (r, h')
          ∧ h' !! r
            = Some (NdArray (shape t) (replicate (length (data t)) NaN)).
Proof.
  intros Hx Hin.
  assert (Ha : max_all (data (torch_abs t)) = Some NaN).
  { apply max_all_NaN. cbn [torch_abs data].
    change NaN with (fabs NaN). by apply list_elem_of_fmap_2. }
  eexists _, _. split; [exact (max_abs_scaling_run h x t c NaN Hx Ha)|].
  rewrite lookup_app_r by lia.
  replace (length h + 3 - length h)%nat with 3%nat by lia.
  cbn [lookup list_lookup]. f_equal.
  unfold torch_mul_scalar, torch_div_scalar. cbn [shape data]. f_equal.
  rewrite <- list_fmap_compose. apply fmap_constant.
  intros v. cbn. by destruct v.
Qed.

Lemma max_abs_scaling_nan_witness :
  [NdArray [2%nat] [Fin 1; NaN]] !! 0%nat = Some (NdArray [2%nat] [Fin 1; NaN])
  ∧ NaN ∈ data (NdArray [2%nat] [Fin 1; NaN])
  ∧ ∃ r h',
      max_abs_scaling 0%nat default_max_abs_value [NdArray [2%nat] [Fin 1; NaN]]
      = Some (r, h')
      ∧ h' !! r
        = Some (NdArray (shape (NdArray [2%nat] [Fin 1; NaN]))
                  (replicate (length (data (NdArray [2%nat] [Fin 1; NaN])))
                     NaN)).
Proof.
  assert (I : NaN ∈ data (NdArray [2%nat] [Fin 1; NaN]))
    by (right; left).
  split; [reflexivity|]. split; [exact I|].
  exact (max_abs_scaling_nan [NdArray [2%nat] [Fin 1; NaN]] 0%nat
           (NdArray [2%nat] [Fin 1; NaN]) default_max_abs_value eq_refl I).
Defined.

(** X20: for finite samples, not all zero, and any finite target
    [c >= 0], every output sample is the input sample divided by the input
    peak [m] and multiplied by [c], and the output peak is [c]. *)
Theorem max_abs_scaling_linear
    (h : heap) (x : ref) (sh : list nat) (qs : list Q) (c : Q) :
  h !! x = Some (NdArray sh (Fin <$> qs)) →
  Exists (λ q, ¬ (q == 0)%Q) qs → (0 <= c)%Q →
  ∃ r h' m p,
    max_abs_scaling x (Fin c) h = Some (r, h')
    ∧ max_all (data (torch_abs (NdArray sh (Fin <$> qs)))) = Some (Fin m)
    ∧ (0 < m)%Q
    ∧ h' !! r = Some (NdArray sh (Fin <$> ((λ q, q / m * c)%Q <$> qs)))
    ∧ max_all (fabs <$> (Fin <$> ((λ q, q / m * c)%Q <$> qs))) = Some (Fin p)
    ∧ (p == c)%Q.
Proof.
  intros Hx Hnz Hc.
  destruct qs as [|q0 qs0]; [by apply Exists_nil in Hnz|].
  set (qs := q0 :: qs0) in *.
  destruct (max_all_Fin (Qabs q0) (Qabs <$> qs0)) as (m & Hm & Hin & Hub).
  change (Qabs q0 :: (Qabs <$> qs0)) with (Qabs <$> qs) in Hm, Hin, Hub.
  apply list_elem_of_fmap in Hin as (qm & Hqm & Hin).
  rewrite Forall_fmap, Forall_forall in Hub.
  assert (Hpos : (0 < m)%Q).
  { apply Exists_exists in Hnz as (q1 & Hq1 & Hne).
    apply Qlt_le_trans with (Qabs q1); [|by apply Hub].
    apply Qnot_le_lt. intros Hle. apply Hne.
    apply Qabs_Qle_condition in Hle as [H1 H2].
    by apply Qle_antisym. }
  assert (Ha : max_all (data (torch_abs (NdArray sh (Fin <$> qs))))
               = Some (Fin m)).
  { rewrite <- Hm. cbn [torch_abs data]. f_equal.
    rewrite <- !list_fmap_compose. by apply list_fmap_ext. }
  pose proof (max_abs_scaling_run h x _ (Fin c) _ Hx Ha) as Run.
  pose proof (scale_finite qs m c Hpos) as D.
  cbn [torch_mul_scalar torch_div_scalar data] in D.
  destruct (max_all_Fin (Qabs (q0 / m * c))
              (Qabs <$> ((λ q, q / m * c)%Q <$> qs0)))
    as (p & Hp & Hpin & Hpub).
  change (Qabs (q0 / m * c) :: (Qabs <$> ((λ q, q / m * c)%Q <$> qs0)))
    with (Qabs <$> ((λ q, q / m * c)%Q <$> qs)) in Hp, Hpin, Hpub.
  rewrite <- list_fmap_compose in Hpin, Hpub.
  apply list_elem_of_fmap in Hpin as (qp & Hqp & Hpin).
  rewrite Forall_fmap, Forall_forall in Hpub.
  assert (Hpeak : (p == c)%Q).
  { apply Qle_antisym.
    - rewrite Hqp. cbn [compose]. apply Qabs_scaled_le; [done..|].
      by apply Hub.
    - specialize (Hpub qm Hin). cbn [compose] in Hpub.
      rewrite <- (Qabs_scaled_peak qm m c); [exact Hpub|done..|].
      by rewrite Hqm. }
  eexists _, _, m, p. split; [exact Run|]. split; [exact Ha|].
  split; [exact Hpos|]. split.
  { rewrite lookup_app_r by lia.
    replace (length h + 3 - length h)%nat with 3%nat by lia.
    cbn [lookup list_lookup]. f_equal.
    unfold torch_mul_scalar, torch_div_scalar. cbn [shape data].
    by rewrite D. }
  split; [|exact Hpeak].
  rewrite <- Hp. f_equal. rewrite <- !list_fmap_compose.
  by apply list_fmap_ext.
Qed.

Lemma max_abs_scaling_linear_witness :
  [NdArray [2%nat] (Fin <$> [2; - (4)]%Q)] !! 0%nat
  = Some (NdArray [2%nat] (Fin <$> [2; - (4)]%Q))
  ∧ Exists (λ q, ¬ (q == 0)%Q) [2; - (4)]%Q
  ∧ (0 <= 1 # 2)%Q
  ∧ ∃ r h' m p,
      max_abs_scaling 0%nat (Fin (1 # 2))
        [NdArray [2%nat] (Fin <$> [2; - (4)]%Q)] = Some (r, h')
      ∧ max_all (data (torch_abs (NdArray [2%nat] (Fin <$> [2; - (4)]%Q))))
        = Some (Fin m)
      ∧ (0 < m)%Q
      ∧ h' !! r
        = Some (NdArray [2%nat]
                  (Fin <$> ((λ q, q / m * (1 # 2))%Q <$> [2; - (4)]%Q)))
      ∧ max_all (fabs <$> (Fin <$> ((λ q, q / m * (1 # 2))%Q
                                      <$> [2; - (4)]%Q)))
        = Some (Fin p)
      ∧ (p == 1 # 2)%Q.
Proof.
  split; [reflexivity|]. split; [by left|]. split; [done|].
  apply (max_abs_scaling_linear [NdArray [2%nat] (Fin <$> [2; - (4)]%Q)]
           0%nat [2%nat] [2; - (4)]%Q (1 # 2)%Q);
    [reflexivity|by left|done].
Defined.

(** ** Class names *)

Section ClassNames.
Implicit Types (cs name prefix suffix : list ascii).

Lemma rsplit1_absent (sep : ascii) cs : sep ∉ cs → rsplit1 sep cs = None.
Proof.
  induction cs as [|c cs IH]; intros Hn; [done|].
  apply not_elem_of_cons in Hn as [Hc Hn]. cbn [rsplit1].
  rewrite (IH Hn). by rewrite decide_False by congruence.
Qed.

Lemma rsplit1_last (sep : ascii) prefix cs :
  sep ∉ cs → rsplit1 sep (prefix ++ sep :: cs) = Some (prefix, cs).
Proof.
  intros Hn. induction prefix as [|c prefix IH]; cbn [app rsplit1].
  - rewrite (rsplit1_absent sep cs Hn). by rewrite decide_True.
  - by rewrite IH.
Qed.

Lemma lstrip_chars_all chars cs :
  Forall (λ c, c ∈ chars) cs → lstrip_chars chars cs = [].
Proof.
  induction 1 as [|c cs Hc _ IH]; [done|].
  cbn [lstrip_chars]. by rewrite decide_True.
Qed.

Lemma lstrip_chars_app chars cs1 cs2 :
  Forall (λ c, c ∈ chars) cs1 →
  lstrip_chars chars (cs1 ++ cs2) = lstrip_chars chars cs2.
Proof.
  induction 1 as [|c cs Hc _ IH]; [done|].
  cbn [app lstrip_chars]. by rewrite decide_True.
Qed.

Lemma lstrip_chars_stop chars c cs :
  c ∉ chars → lstrip_chars chars (c :: cs) = c :: cs.
Proof. intros Hc. cbn [lstrip_chars]. by rewrite decide_False. Qed.

(** Stripping removes a suffix made of the stripped characters from a
    name that neither begins nor ends with one. *)
Lemma strip_chars_suffix chars name suffix :
  Forall (λ c, c ∉ chars) name → Forall (λ c, c ∈ chars) suffix →
  strip_chars chars (name ++ suffix) = name.
Proof.
  intros Hname Hsuf. unfold strip_chars.
  destruct name as [|c name].
  - cbn [app]. rewrite (lstrip_chars_all _ _ Hsuf). done.
  - apply Forall_cons in Hname as [Hc Hname].
    cbn [app]. rewrite lstrip_chars_stop by done.
    change (c :: name ++ suffix) with ((c :: name) ++ suffix).
    rewrite reverse_app.
    rewrite lstrip_chars_app by (by apply Forall_reverse).
    destruct (reverse (c :: name)) as [|c' rn] eqn:R.
    + apply (f_equal length) in R. rewrite length_reverse in R. done.
    + assert (Hc' : c' ∉ chars).
      { assert (Hin : c' ∈ c :: name)
          by (rewrite <- elem_of_reverse, R; left).
        apply elem_of_cons in Hin as [->|Hin]; [done|].
        rewrite Forall_forall in Hname. by apply Hname. }
      rewrite lstrip_chars_stop by done.
      by rewrite <- R, reverse_involutive.
Qed.

End ClassNames.

(** X21: on the text of a class, [<prefix>.<name><quotes>], where [name]
    holds no dot, apostrophe, greater-than sign or double quote, and
    [quotes] is made of the last three (as in [<class 'pkg.mod.Name'>]),
    [classname_from_class] returns [name]. *)
Theorem classname_from_class_name (prefix name suffix : list ascii) :
  Forall (λ c, c ≠ "."%char ∧ c ∉ class_quotes) name →
  Forall (λ c, c ∈ class_quotes) suffix →
  classname_from_class
    (string_of_list_ascii (prefix ++ "."%char :: name ++ suffix))
  = Some (string_of_list_ascii name).
Proof.
  intros Hname Hsuf. unfold classname_from_class.
  rewrite list_ascii_of_string_of_list_ascii.
  apply Forall_and in Hname as [Hdot Hq].
  rewrite rsplit1_last.
  - cbn [mbind option_bind]. by rewrite strip_chars_suffix.
  - rewrite elem_of_app. intros [Hin|Hin].
    + rewrite Forall_forall in Hdot. by apply (Hdot _ Hin).
    + rewrite Forall_forall in Hsuf. specialize (Hsuf _ Hin).
      revert Hsuf. unfold class_quotes. rewrite !elem_of_cons.
      intros [H|[H|[H|H]]]; try discriminate H.
      by apply not_elem_of_nil in H.
Qed.

Lemma classname_from_class_name_witness :
  Forall (λ c, c ≠ "."%char ∧ c ∉ class_quotes)
    (list_ascii_of_string "Adam")
  ∧ Forall (λ c, c ∈ class_quotes) (list_ascii_of_string "'>")
  ∧ classname_from_class
      (string_of_list_ascii
         (list_ascii_of_string "<class 'torch.optim.adam"
          ++ "."%char :: list_ascii_of_string "Adam"
          ++ list_ascii_of_string "'>"))
    = Some (string_of_list_ascii (list_ascii_of_string "Adam")).
Proof.
  assert (N : Forall (λ c, c ≠ "."%char ∧ c ∉ class_quotes)
                (list_ascii_of_string "Adam")).
  { repeat constructor; try discriminate;
      (intros H; repeat (apply elem_of_cons in H as [H|H]; [discriminate H|]);
       by apply not_elem_of_nil in H). }
  assert (S : Forall (λ c, c ∈ class_quotes) (list_ascii_of_string "'>")).
  { repeat constructor. }
  split; [exact N|]. split; [exact S|].
  exact (classname_from_class_name
           (list_ascii_of_string "<class 'torch.optim.adam")
           (list_ascii_of_string "Adam") (list_ascii_of_string "'>") N S).
Defined.

(** X22: on a text without a dot [classname_from_class] raises: the split
    has one piece and index [1] is out of range. *)
Theorem classname_from_class_no_dot (s : string) :
  "."%char ∉ list_ascii_of_string s → classname_from_class s = None.
Proof.
  intros Hn. unfold classname_from_class. by rewrite rsplit1_absent.
Qed.

Lemma classname_from_class_no_dot_witness :
  ("."%char ∉ list_ascii_of_string "<class 'int'>")
  ∧ classname_from_class "<class 'int'>" = None.
Proof.
  assert (N : "."%char ∉ list_ascii_of_string "<class 'int'>").
  { intros H. cbn in H.
    repeat (apply elem_of_cons in H as [H|H]; [discriminate H|]).
    by apply not_elem_of_nil in H. }
  split; [exact N|].
  exact (classname_from_class_no_dot "<class 'int'>" N).
Defined.
